(** * zoekt-underhood: result assembly of the web gateway

    A shallow embedding of the handlers of the [web] package: ticket parsing, the file-tree
    assembler, the source fetch, the snippet builder, the relevance sort, the
    declaration pass and the grouping / dedup pass, with the properties the
    specification states about them.

    Go strings and byte slices are sequences of bytes; both are modelled by
    [string] (a list of 8-bit characters), so [string(b)] is the identity and
    [len] is [String.length].  Go maps keyed by strings are [gmap string _].
    The search library ([query.Parse], [Searcher.List], [Searcher.Search])
    and the [regexp] and [sha1] packages are parameters of the handlers. *)

From Stdlib Require Import ZArith Ascii String List Permutation Sorted Lia Bool.
From Stdlib Require OrderedTypeEx.
From stdpp Require Import gmap strings list fin_maps sorting.

Local Open Scope Z_scope.

(** ** Go library functions used by the handlers *)

Module GoStrings.

(** [strings.Index(s, sep)] followed by the two slicings [s[:m]] and
    [s[m+len(sep):]], for a separator of one byte: the text before the first
    occurrence of [sep] and the text after it, or [None] when [Index]
    answers [-1]. *)
Fixpoint cut (sep : ascii) (s : string) : option (string * string) :=
  match s with
  | EmptyString => None
  | String c s' =>
      if Ascii.eqb c sep then Some (EmptyString, s')
      else match cut sep s' with
           | Some (a, b) => Some (String c a, b)
           | None => None
           end
  end.

(** [strings.Count(s, sep)] for a separator of one byte. *)
Fixpoint Count (sep : ascii) (s : string) : nat :=
  match s with
  | EmptyString => O
  | String c s' => ((if Ascii.eqb c sep then 1 else 0) + Count sep s')%nat
  end.

(** The loop of [strings.genSplit]: at most [k] cuts ([k] is the library's
    [n-1]), the rest of the text is the last element. *)
Fixpoint genSplit (sep : ascii) (k : nat) (s : string) : list string :=
  match k with
  | O => [s]
  | S k' =>
      match cut sep s with
      | None => [s]
      | Some (a, rest) => a :: genSplit sep k' rest
      end
  end.

(** [strings.SplitN(s, sep, n)]: [nil] for [n = 0], all the pieces for
    [n < 0], at most [n] pieces otherwise. *)
Definition SplitN (s : string) (sep : ascii) (n : Z) : list string :=
  if n =? 0 then []
  else if n <? 0 then genSplit sep (Count sep s) s
  else genSplit sep (Z.to_nat (n - 1)) s.

(** [strings.Split(s, sep)] is [SplitN(s, sep, -1)]. *)
Definition Split (s : string) (sep : ascii) : list string := SplitN s sep (-1).

(** [strings.HasPrefix(s, p)]. *)
Fixpoint HasPrefix (s p : string) : bool :=
  match p, s with
  | EmptyString, _ => true
  | String _ _, EmptyString => false
  | String b p', String a s' => Ascii.eqb a b && HasPrefix s' p'
  end.

(** The slicings [s[n:]] and [s[:n]] for [n <= len(s)]. *)
Fixpoint drop (n : nat) (s : string) : string :=
  match n, s with
  | O, _ => s
  | S _, EmptyString => EmptyString
  | S n', String _ s' => drop n' s'
  end.

Fixpoint take (n : nat) (s : string) : string :=
  match n, s with
  | O, _ => EmptyString
  | S _, EmptyString => EmptyString
  | S n', String c s' => String c (take n' s')
  end.

(** [strings.TrimPrefix(s, p)]. *)
Definition TrimPrefix (s p : string) : string :=
  if HasPrefix s p then drop (String.length p) s else s.

(** No byte of [s] is [c]. *)
Fixpoint lacks (c : ascii) (s : string) : bool :=
  match s with
  | EmptyString => true
  | String a s' => negb (Ascii.eqb a c) && lacks c s'
  end.

End GoStrings.

Module GoSort.

(** The inner loop of the library's [insertionSort]: the element [x] at
    index [j] is swapped leftwards while [less(j, j-1)].  [before] is the
    part of the slice to its left, nearest element first. *)
Fixpoint sink {A} (less : A -> A -> bool) (x : A) (before : list A) : list A :=
  match before with
  | [] => [x]
  | y :: before' =>
      if less x y then y :: sink less x before' else x :: y :: before'
  end.

(** [insertionSort(data, 0, n)]: the outer loop keeps the sorted part of the
    slice (held reversed by [sink]) and sinks the next element into it. *)
Definition insertionSort {A} (less : A -> A -> bool) (l : list A) : list A :=
  rev (fold_left (fun before x => sink less x before) l []).

(** [sort.SliceStable(x, less)].  The library sorts blocks of the slice with
    [insertionSort] and merges them keeping equal elements in order; the
    model is the insertion sort on the whole slice.  [stable_sort_classes]
    below shows that no other result is possible for a stable sort under the
    comparison it is used with. *)
Definition SliceStable {A} (less : A -> A -> bool) (l : list A) : list A :=
  insertionSort less l.

(** [sort.Slice(x, less)]: no promise on equal elements.  It is used with a
    comparison under which no two elements of the slice are equal, where the
    sorted slice is unique ([sorted_children_unique] below), so the model is
    again the library's insertion sort. *)
Definition Slice {A} (less : A -> A -> bool) (l : list A) : list A :=
  insertionSort less l.

End GoSort.

(** [a] may stand before [b] in a slice sorted with [less]. *)
Definition notAfter {A} (less : A -> A -> bool) (a b : A) : Prop := less b a = false.

(** Go's [int] on the 64-bit platforms the server is built for. *)
Definition wrap64 (z : Z) : Z := (z + 2 ^ 63) mod 2 ^ 64 - 2 ^ 63.

(** ** Tickets *)

Record ticket := mkTicket { repo : string; path : string }.

Definition colon : ascii := ":"%char.
Definition slash : ascii := "/"%char.

(** [parseTicket] never fails: its error result is always [nil], so the model
    returns the ticket alone. *)
Definition parseTicket (t : string) : ticket :=
  let parts := GoStrings.SplitN t colon 2 in
  let res := mkTicket EmptyString EmptyString in
  let res := match parts with
             | p0 :: _ => mkTicket p0 (path res)
             | [] => res
             end in
  let res := match parts with
             | _ :: p1 :: _ => mkTicket (repo res) p1
             | _ => res
             end in
  res.

Definition complete (t : ticket) : bool :=
  negb (String.eqb (repo t) EmptyString) && negb (String.eqb (path t) EmptyString).

(** The textual form of a ticket, as the handlers build it
    ([f.Repository + ":" + f.FileName]). *)
Definition formatTicket (t : ticket) : string :=
  repo t +:+ String colon (path t).

(** ** What the backend returns (zoekt's types, the fields the handlers read) *)

Record LineFragmentMatch := mkFragment {
  LineOffset : Z;
  MatchLength : Z
}.

Record LineMatch := mkLineMatch {
  Line : string;
  LineStart : Z;
  LineEnd : Z;
  LineNumber : Z;
  LineFragments : list LineFragmentMatch
}.

Record FileMatch := mkFileMatch {
  FileName : string;
  Repository : string;
  LineMatches : list LineMatch;
  Content : string;
  Checksum : string
}.

Record RepositoryBranch := mkBranch { BranchName : string }.

Record RepoListEntry := mkRepo {
  RepoName : string;
  Branches : list RepositoryBranch
}.

(** ** The file tree *)

#[warnings="-register-all"] Inductive FileTree := mkFileTree {
  KytheUri : string;
  Display : string;
  OnlyGenerated : bool;
  IsFile : bool;
  Children : option (list FileTree)
}.

(** The prefix cut off every file name: [topPath + "/"] unless [topPath] is
    empty. *)
Definition treePrefix (topPath : string) : string :=
  if String.eqb topPath EmptyString then EmptyString else topPath +:+ "/".

(** [relParts] of a file: its name relative to the root, split at ["/"]. *)
Definition relParts (topPath : string) (f : FileMatch) : list string :=
  GoStrings.Split (GoStrings.TrimPrefix (FileName f) (treePrefix topPath)) slash.

(** [relParts[0]]; [Split] never answers an empty slice. *)
Definition currentPart (topPath : string) (f : FileMatch) : string :=
  hd EmptyString (relParts topPath f).

Definition treeNode (topPath : string) (f : FileMatch) : FileTree :=
  {| KytheUri := Repository f +:+ String colon (treePrefix topPath +:+ currentPart topPath f);
     Display := currentPart topPath f;
     OnlyGenerated := false;
     IsFile := (length (relParts topPath f) =? 1)%nat;
     Children := None |}.

(** One turn of the loop over [result.Files]: the state is the [seen] map and
    the [subtrees] slice. *)
Definition treeStep (topRepo topPath : string)
    (st : gmap string bool * list FileTree) (f : FileMatch)
    : gmap string bool * list FileTree :=
  if negb (String.eqb (Repository f) topRepo) then st
  else
    match st.1 !! currentPart topPath f with
    | Some _ => st
    | None =>
        (<[currentPart topPath f := true]> st.1, st.2 ++ [treeNode topPath f])
    end.

Definition treeLoop (topRepo topPath : string) (files : list FileMatch)
    : gmap string bool * list FileTree :=
  fold_left (treeStep topRepo topPath) files (∅, []).

(** The branch without a root repository: one node per repository, or one
    per branch of it. *)
Definition repoNode (name : string) : FileTree :=
  {| KytheUri := name; Display := name; OnlyGenerated := false;
     IsFile := false; Children := None |}.

Definition repoNodes (re : RepoListEntry) : list FileTree :=
  match Branches re with
  | [] => [repoNode (RepoName re)]
  | bs => map (fun b => repoNode (RepoName re +:+ "@" +:+ BranchName b)) bs
  end.

(** The comparison given to [sort.Slice]. *)
Definition treeLess (a b : FileTree) : bool :=
  if negb (Bool.eqb (IsFile a) (IsFile b)) then IsFile b
  else String.ltb (Display a) (Display b).

(** The children of the answer of [serveFileTreeErr] once the query has been
    parsed and the backend has answered: from the ticket [top] and what the
    backend returned ([repos] for [List], [files] for [Search]).  The
    handler with its calls is [serveFileTreeErr] below. *)
Definition fileTreeChildren (top : ticket) (repos : list RepoListEntry)
    (files : list FileMatch) : list FileTree :=
  let subtrees :=
    if String.eqb (repo top) EmptyString then flat_map repoNodes repos
    else (treeLoop (repo top) (path top) files).2 in
  GoSort.Slice treeLess subtrees.


(** ** Source fetch *)

Inductive reply (A : Type) :=
| Served (body : A)
| Failed (msg : string).
Arguments Served {A} body.
Arguments Failed {A} msg.

(** The loop of [serveSourceErr] over [result.Files]. *)
Fixpoint sourceLoop (repo : string) (files : list FileMatch) : option string :=
  match files with
  | [] => None
  | f :: files' =>
      if negb (String.eqb (Repository f) repo) then sourceLoop repo files'
      else Some (Content f)
  end.

(** The query sent to the backend: the repository filter matches
    substrings of repository names. *)
Definition sourceQuery (tick : ticket) : string :=
  "r:" +:+ repo tick +:+ " f:^" +:+ path tick +:+ "$".

(** [serveSourceErr] once the query has been parsed and the backend has
    answered: from the [ticket] parameter and the files the backend
    returned for [sourceQuery].  The handler with its calls is
    [serveSourceErr] below. *)
Definition serveSource (ticketText : string) (files : list FileMatch) : reply string :=
  let tick := parseTicket ticketText in
  if negb (complete tick) then Failed "Expected ticket in repo:path format"
  else match sourceLoop (repo tick) files with
       | Some body => Served body
       | None => Failed ("Requested file not in response. Query: " +:+ sourceQuery tick)
       end.

(** ** Cross references: the reply and its parts *)

Record CmPoint := mkPoint { PLine : Z; Ch : Z }.
Record CmRange := mkRange { From : CmPoint; To : CmPoint }.

Record UhSnippet := mkSnippet {
  Text : string;
  FullSpan : CmRange;
  OccurrenceSpan : CmRange
}.

Record UhDisplayedFile := mkDisplayed {
  FileTicket : string;
  DisplayName : string
}.

Record UhFileSites := mkUhFileSites {
  ContainingFile : UhDisplayedFile;
  IsDupOf : option UhDisplayedFile;
  Snippets : list UhSnippet
}.

Record UhSiteGroup := mkGroup { Files : list UhFileSites }.

Record UhRefCounts := mkCounts {
  rcLines : Z;
  rcFiles : Z;
  rcDupFiles : Z;
  rcDupMatches : Z
}.

Record UhXRefReply := mkXRefReply {
  Refs : list UhSiteGroup;
  RefCounts : UhRefCounts;
  Calls : list string;
  CallCount : Z;
  Definitions : list string;
  Declarations : list UhSiteGroup
}.

Record fileSites := mkFileSites {
  containingFile : UhDisplayedFile;
  snippets : list UhSnippet;
  fileChecksum : string;
  snippetsHash : string
}.

(** ** The snippet builder (the loop of [appendSearches]) *)

Definition clipMarker : string := "...line too long, clipped...".

(** [clippedLine]: lengths are Go's [len], counted in bytes. *)
Definition clipLine (line : string) : string :=
  if (250 <? String.length line)%nat
  then GoStrings.take 30 line +:+ clipMarker +:+
       GoStrings.drop (String.length line - 30) line
  else line.

(** The snippet of one line match.  [l.LineFragments[0]] is read first; with
    no fragment the index is out of range and the handler panics, which is
    the answer [None]. *)
Definition snippetOf (l : LineMatch) : option UhSnippet :=
  match LineFragments l with
  | [] => None
  | firstFrag :: _ =>
      let lineNum := wrap64 (LineNumber l - 1) in
      Some {| Text := clipLine (Line l);
              FullSpan :=
                {| From := {| PLine := lineNum; Ch := 0 |};
                   To := {| PLine := lineNum; Ch := wrap64 (LineEnd l - LineStart l) |} |};
              OccurrenceSpan :=
                {| From := {| PLine := lineNum; Ch := LineOffset firstFrag |};
                   To := {| PLine := lineNum;
                            Ch := wrap64 (LineOffset firstFrag + MatchLength firstFrag) |} |} |}
  end.

(** All the lines written to the digest, in order. *)
Definition hashedBytes (f : FileMatch) : string :=
  fold_right String.append EmptyString (map Line (LineMatches f)).

Section Snippets.

(** [crypto/sha1]: the digest of the bytes written to it. *)
Variable sha1Sum : string -> string.

Definition siteOf (f : FileMatch) : option fileSites :=
  snips ← mapM snippetOf (LineMatches f);
  Some {| containingFile :=
            {| FileTicket := Repository f +:+ String colon (FileName f);
               DisplayName := Repository f +:+ String colon (FileName f) |};
          snippets := snips;
          fileChecksum := Checksum f;
          snippetsHash := sha1Sum (hashedBytes f) |}.

(** [appendSearches] once the backend has answered with [files]: the sites
    are appended to [manyFileSites]; [None] is a panic. *)
Definition appendSearches (files : list FileMatch) (manyFileSites : list fileSites)
    : option (list fileSites) :=
  sites ← mapM siteOf files;
  Some (manyFileSites ++ sites).

End Snippets.

(** ** The relevance sort *)

(** The comparison given to [sort.SliceStable]; the error branches of the
    two [parseTicket] calls cannot be taken. *)
Definition relevanceLess (queryTicket : ticket) (a b : fileSites) : bool :=
  let ti := parseTicket (FileTicket (containingFile a)) in
  let tj := parseTicket (FileTicket (containingFile b)) in
  if negb (String.eqb (repo ti) (repo tj)) && String.eqb (repo ti) (repo queryTicket)
  then true
  else if negb (String.eqb (repo ti) (repo tj)) && String.eqb (repo tj) (repo queryTicket)
  then false
  else if String.eqb (repo ti) (repo queryTicket) && negb (String.eqb (path ti) (path tj))
  then (if String.eqb (path ti) (path queryTicket) then true
        else if String.eqb (path tj) (path queryTicket) then false
        else false)
  else false.

Definition relevanceSort (queryTicket : ticket) (sites : list fileSites) : list fileSites :=
  GoSort.SliceStable (relevanceLess queryTicket) sites.

(** The repository and path of a site, as the comparison reads them. *)
Definition siteRepo (fs : fileSites) : string :=
  repo (parseTicket (FileTicket (containingFile fs))).
Definition sitePath (fs : fileSites) : string :=
  path (parseTicket (FileTicket (containingFile fs))).

(** The three classes the comparison tells apart: the requested file, the
    rest of the requested repository, everything else. *)
Definition relevanceRank (q : ticket) (fs : fileSites) : nat :=
  if String.eqb (siteRepo fs) (repo q)
  then (if String.eqb (sitePath fs) (path q) then 0 else 1)%nat
  else 2%nat.

(** ** The declaration pass *)

(** The pattern handed to [regexp.MustCompile]. *)
Definition declPattern (selection : string) : string :=
  "^((^" +:+ selection +:+ "\s*($|::))|(\s+[{,]\s*" +:+ selection +:+
  "\s*::)|(data\s+" +:+ selection +:+ "\b)|(\s+[=|]\s*" +:+ selection +:+ "))".

Section Declarations.

(** Go's [regexp] package: [Compile] (with [None] for its error, on which
    [MustCompile] panics) and [MatchString]. *)
Variable Regexp : Type.
Variable regexpCompile : string -> option Regexp.
Variable MatchString : Regexp -> string -> bool.

(** The two nested loops: a copy of the site per matching snippet, holding
    that snippet alone. *)
Definition declLoop (re : Regexp) (manyFileSites : list fileSites) : list fileSites :=
  flat_map (fun fs =>
    flat_map (fun s =>
      if MatchString re (Text s)
      then [ {| containingFile := containingFile fs;
                snippets := [s];
                fileChecksum := fileChecksum fs;
                snippetsHash := snippetsHash fs |} ]
      else []) (snippets fs)) manyFileSites.

(** [None] is the panic of [MustCompile]. *)
Definition declSites (selection : string) (manyFileSites : list fileSites)
    : option (list fileSites) :=
  re ← regexpCompile (declPattern selection);
  Some (declLoop re manyFileSites).

End Declarations.

(** ** The grouping / dedup pass *)

Record groupResult := mkGroupResult {
  snipCnt : Z;
  fileCnt : Z;
  fileDupCnt : Z;
  matchDupCnt : Z;
  groups : list UhSiteGroup
}.

(** The locals of [groupSites].  Every counter is at most the number of
    sites or of snippets held in memory, so the additions on [int] never
    wrap. *)
Record groupState := mkGroupState {
  seenTickets : gmap string UhDisplayedFile;
  contentGroups : gmap string (list UhFileSites);
  contentGroupOrder : list string;
  stSnipCnt : Z;
  stFileCnt : Z;
  stFileDupCnt : Z;
  stMatchDupCnt : Z
}.

Definition groupInit : groupState :=
  {| seenTickets := ∅; contentGroups := ∅; contentGroupOrder := [];
     stSnipCnt := 0; stFileCnt := 0; stFileDupCnt := 0; stMatchDupCnt := 0 |}.

(** One turn of the loop over [fileSites]. *)
Definition groupStep (st : groupState) (fs : fileSites) : groupState :=
  let dupTick := seenTickets st !! fileChecksum fs in
  let seen' := match dupTick with
               | Some _ => seenTickets st
               | None => <[fileChecksum fs := containingFile fs]> (seenTickets st)
               end in
  let fileDup' := match dupTick with
                  | Some _ => stFileDupCnt st + 1
                  | None => stFileDupCnt st
                  end in
  let h := snippetsHash fs in
  let s := {| ContainingFile := containingFile fs;
              IsDupOf := dupTick;
              Snippets := snippets fs |} in
  match contentGroups st !! h with
  | Some g =>
      {| seenTickets := seen';
         contentGroups := <[h := g ++ [s]]> (contentGroups st);
         contentGroupOrder := contentGroupOrder st;
         stSnipCnt := stSnipCnt st + Z.of_nat (length (snippets fs));
         stFileCnt := stFileCnt st + 1;
         stFileDupCnt := fileDup';
         stMatchDupCnt := stMatchDupCnt st + 1 |}
  | None =>
      {| seenTickets := seen';
         contentGroups := <[h := [s]]> (contentGroups st);
         contentGroupOrder := contentGroupOrder st ++ [h];
         stSnipCnt := stSnipCnt st + Z.of_nat (length (snippets fs));
         stFileCnt := stFileCnt st + 1;
         stFileDupCnt := fileDup';
         stMatchDupCnt := stMatchDupCnt st |}
  end.

Definition groupLoop (sites : list fileSites) : groupState :=
  fold_left groupStep sites groupInit.

(** [contentGroups[h]]: the zero value (a nil slice) for a missing key. *)
Definition groupOf (st : groupState) (h : string) : UhSiteGroup :=
  {| Files := default [] (contentGroups st !! h) |}.

Definition groupSites (sites : list fileSites) : groupResult :=
  let st := groupLoop sites in
  {| snipCnt := stSnipCnt st;
     fileCnt := stFileCnt st;
     fileDupCnt := stFileDupCnt st;
     matchDupCnt := stMatchDupCnt st;
     groups := map (groupOf st) (contentGroupOrder st) |}.

(** ** The cross-reference reply *)

Section SearchXref.

Variable sha1Sum : string -> string.
Variable Regexp : Type.
Variable regexpCompile : string -> option Regexp.
Variable MatchString : Regexp -> string -> bool.

(** [serveSearchXrefErr] from the parsed parameters and the files the backend
    returned; [None] is a panic. *)
Definition serveSearchXref (selection : string) (ticketText : string)
    (files : list FileMatch) : option UhXRefReply :=
  let queryTicket := parseTicket ticketText in
  sites ← appendSearches sha1Sum files [];
  let manyFileSites := relevanceSort queryTicket sites in
  decls ← declSites Regexp regexpCompile MatchString selection manyFileSites;
  let rs := groupSites manyFileSites in
  let ds := groupSites decls in
  Some {| Refs := groups rs;
          RefCounts := {| rcLines := snipCnt rs; rcFiles := fileCnt rs;
                          rcDupFiles := fileDupCnt rs;
                          rcDupMatches := matchDupCnt rs |};
          Calls := []; CallCount := 0; Definitions := [];
          Declarations := groups ds |}.

End SearchXref.

(** ** Reading the grouping pass: what each site should come out as *)

(** The first site of [l] with checksum [c]. *)
Definition canonicalOf (c : string) (l : list fileSites) : option fileSites :=
  List.find (fun g => String.eqb (fileChecksum g) c) l.

(** The site as emitted when the sites [before] it have been seen. *)
Definition emit (before : list fileSites) (fs : fileSites) : UhFileSites :=
  {| ContainingFile := containingFile fs;
     IsDupOf := containingFile <$> canonicalOf (fileChecksum fs) before;
     Snippets := snippets fs |}.

(** The emitted sites with their digests, in input order. *)
Fixpoint emitFrom (before l : list fileSites) : list (string * UhFileSites) :=
  match l with
  | [] => []
  | fs :: l' => (snippetsHash fs, emit before fs) :: emitFrom (before ++ [fs]) l'
  end.

Definition emitted (l : list fileSites) : list (string * UhFileSites) :=
  emitFrom [] l.

(** The emitted sites with digest [h], in input order. *)
Definition members (h : string) (out : list (string * UhFileSites)) : list UhFileSites :=
  map snd (List.filter (fun p => String.eqb (fst p) h) out).

(** The distinct values of a list, each at its first occurrence. *)
Fixpoint firstSeen (l : list string) : list string :=
  match l with
  | [] => []
  | h :: l' => h :: List.filter (fun x => negb (String.eqb x h)) (firstSeen l')
  end.

(** [k] is one of [l]. *)
Definition has (k : string) (l : list string) : bool := existsb (String.eqb k) l.

(** How many elements of [l] have a key already met in [seen] or earlier in
    [l]. *)
Fixpoint repeats (seen l : list string) : nat :=
  match l with
  | [] => O
  | k :: l' =>
      ((if has k seen then 1 else 0) + repeats (seen ++ [k]) l')%nat
  end.

(** The emitted site is marked as a duplicate. *)
Definition isDup (s : UhFileSites) : bool :=
  match IsDupOf s with Some _ => true | None => false end.

(** What the locals of [groupSites] hold once the sites [done] have been
    processed. *)
Record GroupInv (done : list fileSites) (st : groupState) : Prop := {
  inv_seen : forall c,
    seenTickets st !! c = containingFile <$> canonicalOf c done;
  inv_groups : forall h,
    contentGroups st !! h =
      if has h (map snippetsHash done) then Some (members h (emitted done)) else None;
  inv_order : contentGroupOrder st = firstSeen (map snippetsHash done);
  inv_fileCnt : stFileCnt st = Z.of_nat (length done);
  inv_fileDup : stFileDupCnt st = Z.of_nat (repeats [] (map fileChecksum done));
  inv_matchDup : stMatchDupCnt st = Z.of_nat (repeats [] (map snippetsHash done))
}.


(** What the locals of the file-tree loop hold once the files [done] have
    been processed: [seen] holds the names of the nodes, no name is taken
    twice, every node comes from the first file of the root repository with
    its name, and every such file has its node. *)
Record TreeInv (topRepo topPath : string) (done : list FileMatch)
    (st : gmap string bool * list FileTree) : Prop := {
  tree_seen : forall d, is_Some (st.1 !! d) <-> In d (map Display st.2);
  tree_nodup : List.NoDup (map Display st.2);
  tree_from : forall t, In t st.2 ->
    exists i f, done !! i = Some f /\ Repository f = topRepo /\
      t = treeNode topPath f /\
      forall j g, (j < i)%nat -> done !! j = Some g -> Repository g = topRepo ->
                  currentPart topPath g <> currentPart topPath f;
  tree_all : forall f, In f done -> Repository f = topRepo ->
    In (currentPart topPath f) (map Display st.2)
}.


(** ** Runes: what [for _, c := range s] and [WriteRune] do *)

Module GoUtf8.

Definition byteVal (a : ascii) : Z := Z.of_N (N_of_ascii a).
Definition byteOf (z : Z) : ascii := ascii_of_N (Z.to_N z).

Definition RuneError : Z := 65533.

Definition between (lo hi b : Z) : bool := (lo <=? b) && (b <=? hi).
Definition isCont (b : Z) : bool := between 128 191 b.

(** The rune at the head of a non-empty string and its width in bytes, as
    the [range] loop decodes it: an ill-formed sequence gives [RuneError]
    and the width 1. *)
Definition decodeRune (s : string) : Z * nat :=
  match s with
  | EmptyString => (RuneError, 1%nat)
  | String a0 rest =>
      let b0 := byteVal a0 in
      if b0 <? 128 then (b0, 1%nat)
      else if between 194 223 b0 then
        match rest with
        | String a1 _ =>
            if isCont (byteVal a1)
            then (Z.lor (Z.shiftl (Z.land b0 31) 6) (Z.land (byteVal a1) 63), 2%nat)
            else (RuneError, 1%nat)
        | _ => (RuneError, 1%nat)
        end
      else if between 224 239 b0 then
        match rest with
        | String a1 (String a2 _) =>
            let lo := if b0 =? 224 then 160 else 128 in
            let hi := if b0 =? 237 then 159 else 191 in
            if between lo hi (byteVal a1) && isCont (byteVal a2)
            then (Z.lor (Z.shiftl (Z.land b0 15) 12)
                    (Z.lor (Z.shiftl (Z.land (byteVal a1) 63) 6)
                           (Z.land (byteVal a2) 63)), 3%nat)
            else (RuneError, 1%nat)
        | _ => (RuneError, 1%nat)
        end
      else if between 240 244 b0 then
        match rest with
        | String a1 (String a2 (String a3 _)) =>
            let lo := if b0 =? 240 then 144 else 128 in
            let hi := if b0 =? 244 then 143 else 191 in
            if between lo hi (byteVal a1) && isCont (byteVal a2) && isCont (byteVal a3)
            then (Z.lor (Z.shiftl (Z.land b0 7) 18)
                    (Z.lor (Z.shiftl (Z.land (byteVal a1) 63) 12)
                       (Z.lor (Z.shiftl (Z.land (byteVal a2) 63) 6)
                              (Z.land (byteVal a3) 63))), 4%nat)
            else (RuneError, 1%nat)
        | _ => (RuneError, 1%nat)
        end
      else (RuneError, 1%nat)
  end.

(** The runes the loop [for _, c := range s] goes through.  [skip] counts the
    bytes still to pass over, those of the rune decoded last. *)
Fixpoint runesFrom (skip : nat) (s : string) : list Z :=
  match s with
  | EmptyString => []
  | String a s' =>
      match skip with
      | S k => runesFrom k s'
      | O => let '(r, w) := decodeRune (String a s') in r :: runesFrom (w - 1) s'
      end
  end.

Definition runes (s : string) : list Z := runesFrom 0 s.

(** [utf8.AppendRune]: the bytes [WriteRune(r)] writes and [string(r)]
    holds; a surrogate or a value out of range is written as
    [RuneError]. *)
Definition encode3 (r : Z) : string :=
  String (byteOf (Z.lor 224 (Z.shiftr r 12)))
    (String (byteOf (Z.lor 128 (Z.land (Z.shiftr r 6) 63)))
       (String (byteOf (Z.lor 128 (Z.land r 63))) EmptyString)).

Definition encodeRune (r : Z) : string :=
  if between 0 127 r then String (byteOf r) EmptyString
  else if between 128 2047 r then
    String (byteOf (Z.lor 192 (Z.shiftr r 6)))
      (String (byteOf (Z.lor 128 (Z.land r 63))) EmptyString)
  else if (r <? 0) || (1114111 <? r) || between 55296 57343 r then encode3 RuneError
  else if r <=? 65535 then encode3 r
  else
    String (byteOf (Z.lor 240 (Z.shiftr r 18)))
      (String (byteOf (Z.lor 128 (Z.land (Z.shiftr r 12) 63)))
         (String (byteOf (Z.lor 128 (Z.land (Z.shiftr r 6) 63)))
            (String (byteOf (Z.lor 128 (Z.land r 63))) EmptyString))).

(** Every byte of [s] is below 128. *)
Fixpoint isASCII (s : string) : bool :=
  match s with
  | EmptyString => true
  | String a s' => (byteVal a <? 128) && isASCII s'
  end.

End GoUtf8.

(** ** The query translator *)

(** [strings.ContainsAny(s, chars)] for [chars] made of ASCII bytes: some
    byte of [s] is one of [chars]. *)
Fixpoint ContainsAny (s chars : string) : bool :=
  match s with
  | EmptyString => false
  | String a s' => negb (GoStrings.lacks a chars) || ContainsAny s' chars
  end.

Definition toEscape : string := ":()[]\.*?^$+{}, ".

Definition backslash : ascii := "\"%char.

(** The body of the loop of [escapeLiteralQuery] for the rune [c]. *)
Definition escapeRune (c : Z) : string :=
  (if ContainsAny (GoUtf8.encodeRune c) toEscape
   then String backslash EmptyString else EmptyString)
  +:+ GoUtf8.encodeRune c.

Definition escapeLiteralQuery (s : string) : string :=
  fold_right String.append EmptyString (map escapeRune (GoUtf8.runes s)).

(** Reading an escaped text back: a backslash gives way to the byte after
    it. *)
Fixpoint unescape (s : string) : string :=
  match s with
  | EmptyString => EmptyString
  | String a s' =>
      if Ascii.eqb a backslash
      then match s' with
           | EmptyString => EmptyString
           | String b s'' => String b (unescape s'')
           end
      else String a (unescape s')
  end.

(** How many bytes of [s] are among [chars]. *)
Fixpoint countAny (s chars : string) : nat :=
  match s with
  | EmptyString => O
  | String a s' =>
      ((if GoStrings.lacks a chars then 0 else 1) + countAny s' chars)%nat
  end.

(** The [casing] and [mode] parameters of [serveSearchXrefErr]: the first
    value when it is one of the known ones, the default otherwise ([None]
    stands for a parameter that is not in the request). *)
Definition pickCasing (casings : option string) : string :=
  match casings with
  | Some c =>
      if String.eqb c "yes" || String.eqb c "no" || String.eqb c "auto"
      then c else "auto"
  | None => "auto"
  end.

Definition pickMode (modes : option string) : string :=
  match modes with
  | Some m =>
      if String.eqb m "Lax" || String.eqb m "Boundary" || String.eqb m "Raw"
      then m else "Lax"
  | None => "Lax"
  end.

(** The query [rq] sent to the backend for a selection. *)
Definition xrefQuery (mode casing selection : string) : string :=
  if String.eqb mode "Raw" then selection
  else
    let moddedSelection := escapeLiteralQuery selection in
    let moddedSelection :=
      if String.eqb mode "Boundary"
      then "\b" +:+ moddedSelection +:+ "\b" else moddedSelection in
    "case:" +:+ casing +:+ " " +:+ moddedSelection.

(** ** The match limits of [appendSearches] and [serveSearchErr] *)

(** Division on [int]: a zero divisor panics ([None]); the quotient is
    truncated towards zero. *)
Definition goDiv (a b : Z) : option Z :=
  if b =? 0 then None else Some (wrap64 (Z.quot a b)).

(** The options the handler sets; a total that it leaves as [SetDefaults]
    put it is [None]. *)
Record matchLimits := mkLimits {
  ShardMaxMatchCount : Z;
  ShardMaxImportantMatch : Z;
  TotalMaxMatchCount : option Z;
  TotalMaxImportantMatch : option Z;
  MaxDocDisplayCount : Z
}.

(** From the number [num] of files asked for and the estimate [numdocs] of
    the first search. *)
Definition searchLimits (num numdocs : Z) : option matchLimits :=
  if 10000 <? numdocs then
    perThousand ← goDiv numdocs 1000;
    extra ← goDiv (wrap64 (5 * num)) perThousand;
    perFiveHundred ← goDiv numdocs 500;
    twentieth ← goDiv num 20;
    important ← goDiv num perFiveHundred;
    Some {| ShardMaxMatchCount := wrap64 (wrap64 (num * 5) + extra);
            ShardMaxImportantMatch := wrap64 (twentieth + important);
            TotalMaxMatchCount := None;
            TotalMaxImportantMatch := None;
            MaxDocDisplayCount := num |}
  else
    let n := wrap64 (numdocs + wrap64 (num * 100)) in
    Some {| ShardMaxMatchCount := n;
            ShardMaxImportantMatch := n;
            TotalMaxMatchCount := Some n;
            TotalMaxImportantMatch := Some n;
            MaxDocDisplayCount := num |}.

(** The number of snippets of a list of sites. *)
Definition snippetTotal (l : list fileSites) : nat :=
  list_sum (map (fun fs => length (snippets fs)) l).

(** ** Reading the declaration pass *)

(** The snippets of a site that the expression matches. *)
Definition matching {Regexp : Type} (MatchString : Regexp -> string -> bool)
    (re : Regexp) (fs : fileSites) : list UhSnippet :=
  List.filter (fun s => MatchString re (Text s)) (snippets fs).

(** The sites with a matching snippet. *)
Definition declared {Regexp : Type} (MatchString : Regexp -> string -> bool)
    (re : Regexp) (sites : list fileSites) : list fileSites :=
  List.filter (fun fs => negb (Nat.eqb (length (matching MatchString re fs)) 0)) sites.

(** ** The handlers with their calls to the backend *)

(** [query.Parse] and the two calls on [s.Searcher] belong to the search
    library: the handlers are read over any parser and any backend.  A
    call answers a value or an error ([Failed] with the error's text).  The
    two searches differ in the options by [Whole] only, which stands for
    them here. *)
Section Handlers.

Variable Q : Type.
Variable queryParse : string -> reply Q.
Variable SearcherList : Q -> reply (list RepoListEntry).
Variable SearcherSearch : Q -> bool -> reply (list FileMatch).



(** [serveSourceErr] for the value [ticketText] of the single [ticket]
    parameter: the ticket is checked, the query parsed, the files searched
    with [Whole] set, and the loop run on what the backend returned. *)
Definition serveSourceErr (ticketText : string) : reply string :=
  let tick := parseTicket ticketText in
  if negb (complete tick) then Failed "Expected ticket in repo:path format"
  else
    match queryParse (sourceQuery tick) with
    | Failed err => Failed err
    | Served q =>
        match SearcherSearch q true with
        | Failed err => Failed err
        | Served files => serveSource ticketText files
        end
    end.

End Handlers.

(** ** Reading the file tree *)



(** The number of characters of a text: the runes Go reads in it. *)
Definition characters (s : string) : nat := length (GoUtf8.runes s).

(** Case analysis on every comparison of strings in the goal. *)
Ltac split_eqb :=
  repeat match goal with
         | |- context [String.eqb ?a ?b] => destruct (String.eqb_spec a b)
         end.

(** * Properties *)

(** ** Strings *)

Section StringFacts.
Import GoStrings.

Lemma cut_app_lacks (c : ascii) (a b : string) :
  lacks c a = true -> cut c (a +:+ String c b) = Some (a, b).
Proof.
  induction a as [|x a IH]; simpl.
  - intros _. now rewrite Ascii.eqb_refl.
  - intros H. apply andb_prop in H as [Hx Ha].
    apply negb_true_iff in Hx. rewrite Hx, (IH Ha). reflexivity.
Qed.

Lemma genSplit_nonempty (c : ascii) (k : nat) (s : string) : genSplit c k s <> [].
Proof.
  destruct k as [|k]; simpl; [discriminate|].
  destruct (cut c s) as [[a b]|]; discriminate.
Qed.

Lemma Split_nonempty (s : string) (c : ascii) : Split s c <> [].
Proof. unfold Split, SplitN. simpl. apply genSplit_nonempty. Qed.

Lemma take_drop (n : nat) (s : string) : take n s +:+ drop n s = s.
Proof.
  revert s. induction n as [|n IH]; intros [|c s]; try reflexivity.
  change (String c (take n s +:+ drop n s) = String c s). now rewrite IH.
Qed.

Lemma length_take (n : nat) (s : string) :
  (n <= String.length s)%nat -> String.length (take n s) = n.
Proof.
  revert s. induction n as [|n IH]; intros [|c s]; simpl; intros H; try lia.
  rewrite IH; lia.
Qed.

Lemma length_drop (n : nat) (s : string) :
  String.length (drop n s) = (String.length s - n)%nat.
Proof.
  revert s. induction n as [|n IH]; intros [|c s]; simpl; try lia.
  apply IH.
Qed.

Lemma drop_drop (n m : nat) (s : string) : drop m (drop n s) = drop (n + m) s.
Proof.
  revert s. induction n as [|n IH]; intros [|c s]; simpl; try reflexivity.
  - now destruct m.
  - apply IH.
Qed.

End StringFacts.

(** ** Ticket round trip *)

Lemma parseTicket_format_gen (r p : string) :
  GoStrings.lacks colon r = true ->
  parseTicket (r +:+ String colon p) = mkTicket r p.
Proof.
  intros Hr. unfold parseTicket, GoStrings.SplitN. simpl.
  rewrite (cut_app_lacks colon r p Hr). reflexivity.
Qed.

(** C7. A complete ticket whose repository and path hold no colon is read
    back unchanged from its textual form [repository ":" path]. *)
Theorem parseTicket_formatTicket (t : ticket) :
  complete t = true ->
  GoStrings.lacks colon (repo t) = true ->
  GoStrings.lacks colon (path t) = true ->
  parseTicket (formatTicket t) = t.
Proof.
  intros _ Hr _. destruct t as [r p]. unfold formatTicket. simpl in *.
  now apply parseTicket_format_gen.
Qed.

Lemma parseTicket_formatTicket_witness :
  complete (mkTicket "repo1" "dir/a.txt") = true /\
  GoStrings.lacks colon "repo1" = true /\
  GoStrings.lacks colon "dir/a.txt" = true /\
  parseTicket (formatTicket (mkTicket "repo1" "dir/a.txt")) = mkTicket "repo1" "dir/a.txt".
Proof.
  split; [reflexivity|]. split; [reflexivity|]. split; [reflexivity|].
  apply (parseTicket_formatTicket (mkTicket "repo1" "dir/a.txt")); reflexivity.
Defined.

(** ** The snippet builder *)

Lemma length_append (a b : string) :
  String.length (a +:+ b) = (String.length a + String.length b)%nat.
Proof. induction a as [|c a IH]; simpl; [reflexivity | now rewrite IH]. Qed.

Lemma clipLine_short (line : string) :
  (String.length line <= 250)%nat -> clipLine line = line.
Proof.
  intros H. unfold clipLine.
  destruct (Nat.ltb_spec 250 (String.length line)); [lia | reflexivity].
Qed.

Lemma clipLine_long (line : string) :
  (250 < String.length line)%nat ->
  clipLine line =
    GoStrings.take 30 line +:+ clipMarker +:+
    GoStrings.drop (String.length line - 30) line.
Proof.
  intros H. unfold clipLine.
  destruct (Nat.ltb_spec 250 (String.length line)); [reflexivity | lia].
Qed.

(** The kept head and tail are the first and the last 30 bytes of the line. *)
Lemma clip_parts (line : string) :
  (250 < String.length line)%nat ->
  exists mid,
    line = GoStrings.take 30 line +:+ mid +:+
           GoStrings.drop (String.length line - 30) line /\
    String.length (GoStrings.take 30 line) = 30%nat /\
    String.length (GoStrings.drop (String.length line - 30) line) = 30%nat.
Proof.
  intros H.
  exists (GoStrings.take (String.length line - 60) (GoStrings.drop 30 line)).
  split; [|split].
  - replace (String.length line - 30)%nat with (30 + (String.length line - 60))%nat by lia.
    rewrite <- drop_drop, take_drop, take_drop. reflexivity.
  - apply length_take. lia.
  - rewrite length_drop. lia.
Qed.

(** C8. A line match with a fragment always gives a snippet.  When the line
    is longer than 250 bytes (Go's [len]), the text of the snippet is the
    first 30 bytes of the line, the marker [...line too long, clipped...]
    and the last 30 bytes of the line; a line of at most 250 bytes is shown
    as it is; in both cases the two spans are those of the whole line: they
    are computed from the line match alone and do not change with the
    clipping. *)
Theorem snippetOf_clipping (l : LineMatch) (firstFrag : LineFragmentMatch)
    (rest : list LineFragmentMatch) :
  LineFragments l = firstFrag :: rest ->
  exists s,
    snippetOf l = Some s /\
    ((250 < String.length (Line l))%nat ->
       exists head mid tail,
         Line l = head +:+ mid +:+ tail /\
         String.length head = 30%nat /\ String.length tail = 30%nat /\
         Text s = head +:+ "...line too long, clipped..." +:+ tail) /\
    ((String.length (Line l) <= 250)%nat -> Text s = Line l) /\
    FullSpan s =
      mkRange (mkPoint (wrap64 (LineNumber l - 1)) 0)
              (mkPoint (wrap64 (LineNumber l - 1)) (wrap64 (LineEnd l - LineStart l))) /\
    OccurrenceSpan s =
      mkRange (mkPoint (wrap64 (LineNumber l - 1)) (LineOffset firstFrag))
              (mkPoint (wrap64 (LineNumber l - 1))
                       (wrap64 (LineOffset firstFrag + MatchLength firstFrag))).
Proof.
  intros Hfr. unfold snippetOf. rewrite Hfr.
  eexists. split; [reflexivity|]. simpl. split; [|split; [|split]].
  - intros Hlong. destruct (clip_parts (Line l) Hlong) as (mid & Hline & Hh & Ht).
    exists (GoStrings.take 30 (Line l)), mid,
           (GoStrings.drop (String.length (Line l) - 30) (Line l)).
    repeat split; try assumption. exact (clipLine_long (Line l) Hlong).
  - apply clipLine_short.
  - reflexivity.
  - reflexivity.
Qed.

Lemma snippetOf_clipping_witness :
  let l := mkLineMatch (string_of_list_ascii (List.repeat "x"%char 300)) 0 300 1
                       [mkFragment 10 3] in
  LineFragments l = [mkFragment 10 3] /\
  (250 < String.length (Line l))%nat /\
  exists s, snippetOf l = Some s /\ String.length (Text s) = 88%nat.
Proof.
  intros l. split; [reflexivity|].
  assert (Hlong : (250 < String.length (Line l))%nat) by (vm_compute; lia).
  split; [exact Hlong|].
  destruct (snippetOf_clipping l (mkFragment 10 3) [] eq_refl) as (s & Hs & Hclip & _).
  exists s. split; [exact Hs|].
  destruct (Hclip Hlong) as (head & mid & tail & _ & Hh & Ht & ->).
  rewrite !length_append, Hh, Ht. reflexivity.
Defined.

(** C8 (counterexample).  The lengths are not counted in characters: a line
    of 126 characters of two bytes each is 252 bytes long; it has fewer
    than 250 characters and is clipped all the same, to 30 bytes, that is
    15 characters, on either side of the marker. *)
Lemma clipping_counts_bytes :
  let line := string_of_list_ascii
                (List.concat (List.repeat [GoUtf8.byteOf 195; GoUtf8.byteOf 169] 126)) in
  let l := mkLineMatch line 0 252 1 [mkFragment 0 2] in
  (characters line <= 250)%nat /\
  characters line = 126%nat /\
  String.length line = 252%nat /\
  exists s,
    snippetOf l = Some s /\
    Text s <> line /\
    Text s = GoStrings.take 30 line +:+ "...line too long, clipped..." +:+
             GoStrings.drop 222 line /\
    characters (GoStrings.take 30 line) = 15%nat.
Proof.
  intros line l.
  assert (Hchars : characters line = 126%nat) by (vm_compute; reflexivity).
  split; [rewrite Hchars; lia|]. split; [exact Hchars|].
  split; [vm_compute; reflexivity|].
  eexists. split; [reflexivity|]. split; [|split].
  - intros H. apply (f_equal String.length) in H. vm_compute in H. discriminate.
  - vm_compute. reflexivity.
  - vm_compute. reflexivity.
Qed.

Lemma snippetOf_Some (l : LineMatch) :
  LineFragments l <> [] -> is_Some (snippetOf l).
Proof.
  unfold snippetOf. destruct (LineFragments l); [congruence | eauto].
Qed.

Lemma snippetOf_None (l : LineMatch) :
  LineFragments l = [] -> snippetOf l = None.
Proof. unfold snippetOf. now intros ->. Qed.

Lemma siteOf_Some (sha1Sum : string -> string) (f : FileMatch) :
  Forall (fun l => LineFragments l <> []) (LineMatches f) ->
  exists fs, siteOf sha1Sum f = Some fs /\
             length (snippets fs) = length (LineMatches f).
Proof.
  intros Hall. unfold siteOf.
  assert (Hs : is_Some (mapM snippetOf (LineMatches f))).
  { apply mapM_is_Some. eapply Forall_impl; [exact Hall|].
    intros l Hl. now apply snippetOf_Some. }
  destruct Hs as [snips Hs]. rewrite Hs. simpl.
  eexists; split; [reflexivity|]. simpl.
  symmetry. eapply length_mapM. exact Hs.
Qed.

Lemma siteOf_None (sha1Sum : string -> string) (f : FileMatch) (l : LineMatch) :
  In l (LineMatches f) -> LineFragments l = [] -> siteOf sha1Sum f = None.
Proof.
  intros Hin Hl. unfold siteOf.
  assert (Hn : mapM snippetOf (LineMatches f) = None).
  { apply mapM_None, Exists_exists. exists l. split.
    - now apply list_elem_of_In.
    - now apply snippetOf_None. }
  now rewrite Hn.
Qed.

(** C10. When every line match of the backend's answer has a fragment, the
    read of [LineFragments[0]] is in bounds for each of them and the sites
    are built, one per file with one snippet per line match; a line match
    without fragments makes the handler panic. *)
Theorem appendSearches_in_bounds (sha1Sum : string -> string)
    (files : list FileMatch) (manyFileSites : list fileSites) :
  ((forall f l, In f files -> In l (LineMatches f) -> LineFragments l <> []) ->
   exists sites,
     appendSearches sha1Sum files manyFileSites = Some (manyFileSites ++ sites) /\
     Forall2 (fun f fs => siteOf sha1Sum f = Some fs /\
                          length (snippets fs) = length (LineMatches f))
             files sites) /\
  (forall f l, In f files -> In l (LineMatches f) -> LineFragments l = [] ->
     appendSearches sha1Sum files manyFileSites = None).
Proof.
  split.
  - intros Hall. unfold appendSearches.
    assert (Hs : exists sites,
               Forall2 (fun f fs => siteOf sha1Sum f = Some fs /\
                          length (snippets fs) = length (LineMatches f)) files sites).
    { induction files as [|f files IH].
      - exists []. constructor.
      - destruct IH as [sites Hsites].
        { intros g l Hg. apply Hall. now right. }
        destruct (siteOf_Some sha1Sum f) as (fs & Hfs & Hlen).
        { apply List.Forall_forall. intros l Hl. apply (Hall f l); [now left | exact Hl]. }
        exists (fs :: sites). now constructor. }
    destruct Hs as [sites Hsites]. exists sites. split; [|exact Hsites].
    assert (Hm : mapM (siteOf sha1Sum) files = Some sites).
    { apply mapM_Some. eapply Forall2_impl; [exact Hsites|]. now intros f fs [H _]. }
    now rewrite Hm.
  - intros f l Hf Hl Hnil. unfold appendSearches.
    assert (Hn : mapM (siteOf sha1Sum) files = None).
    { apply mapM_None, Exists_exists. exists f. split.
      - now apply list_elem_of_In.
      - now apply (siteOf_None sha1Sum f l). }
    now rewrite Hn.
Qed.

(** ** The library's insertion sort *)

Section InsertionSort.
Import GoSort.
Context {A : Type} (less : A -> A -> bool).

Lemma sink_perm (x : A) (before : list A) :
  Permutation (sink less x before) (x :: before).
Proof.
  induction before as [|y before IH]; simpl; [reflexivity|].
  destruct (less x y); [|reflexivity].
  rewrite IH. apply perm_swap.
Qed.

Lemma sortLoop_perm (l acc : list A) :
  Permutation (fold_left (fun before x => sink less x before) l acc) (acc ++ l).
Proof.
  revert acc. induction l as [|x l IH]; intros acc; simpl.
  - now rewrite app_nil_r.
  - rewrite IH, sink_perm. simpl. apply Permutation_middle.
Qed.

Lemma insertionSort_perm (l : list A) : Permutation (insertionSort less l) l.
Proof.
  unfold insertionSort. rewrite <- Permutation_rev. apply (sortLoop_perm l []).
Qed.

Lemma insertionSort_In (l : list A) (x : A) : In x (insertionSort less l) <-> In x l.
Proof.
  split; apply Permutation_in; [|symmetry]; apply insertionSort_perm.
Qed.

(** Stability: elements that the comparison never orders among themselves
    keep their order. *)
Section Stable.
Variable p : A -> bool.
Hypothesis p_unordered : forall a b, less a b = true -> p a = true -> p b = false.

Lemma sink_stable (x : A) (before : list A) :
  List.filter p (sink less x before) = List.filter p (x :: before).
Proof.
  induction before as [|y before IH]; [reflexivity|].
  simpl sink. destruct (less x y) eqn:Hxy; [|reflexivity].
  simpl List.filter at 1. rewrite IH. simpl.
  destruct (p x) eqn:Hx; [|reflexivity].
  now rewrite (p_unordered x y Hxy Hx).
Qed.

Lemma sortLoop_stable (l acc : list A) :
  List.filter p (fold_left (fun before x => sink less x before) l acc)
  = rev (List.filter p l) ++ List.filter p acc.
Proof.
  revert acc. induction l as [|x l IH]; intros acc; simpl; [reflexivity|].
  rewrite IH, sink_stable. simpl.
  destruct (p x); simpl; [|reflexivity].
  now rewrite <- app_assoc.
Qed.

Lemma filter_rev (l : list A) : List.filter p (rev l) = rev (List.filter p l).
Proof.
  induction l as [|x l IH]; simpl; [reflexivity|].
  rewrite List.filter_app, IH. simpl. destruct (p x); simpl; [reflexivity|].
  now rewrite app_nil_r.
Qed.

Lemma insertionSort_stable (l : list A) :
  List.filter p (insertionSort less l) = List.filter p l.
Proof.
  unfold insertionSort. rewrite filter_rev, (sortLoop_stable l []). simpl.
  now rewrite app_nil_r, rev_involutive.
Qed.

End Stable.

(** Sortedness, for a comparison that is asymmetric and whose negation is
    transitive (a strict weak order). *)
Section Sorted.
Hypothesis less_asym : forall a b, less a b = true -> less b a = false.
Hypothesis notAfter_trans : forall a b c, notAfter less a b -> notAfter less b c -> notAfter less a c.

Lemma sink_sorted (x : A) (before : list A) :
  StronglySorted (fun a b => notAfter less b a) before ->
  StronglySorted (fun a b => notAfter less b a) (sink less x before).
Proof.
  induction before as [|y before IH]; intros Hs; simpl.
  - repeat constructor.
  - apply StronglySorted_inv in Hs as [Hs Hy].
    destruct (less x y) eqn:Hxy.
    + constructor; [now apply IH|].
      apply List.Forall_forall. intros z Hz.
      apply (Permutation_in _ (sink_perm x before)) in Hz as [<-|Hz].
      * now apply less_asym.
      * rewrite List.Forall_forall in Hy. now apply Hy.
    + constructor; [now constructor|].
      constructor; [exact Hxy|].
      rewrite List.Forall_forall in Hy |- *. intros z Hz.
      apply (notAfter_trans z y x); [now apply Hy | exact Hxy].
Qed.

Lemma sortLoop_sorted (l acc : list A) :
  StronglySorted (fun a b => notAfter less b a) acc ->
  StronglySorted (fun a b => notAfter less b a)
    (fold_left (fun before x => sink less x before) l acc).
Proof.
  revert acc. induction l as [|x l IH]; intros acc Hs; simpl; [exact Hs|].
  apply IH. now apply sink_sorted.
Qed.

Lemma StronglySorted_rev (R : A -> A -> Prop) (l : list A) :
  StronglySorted (fun a b => R b a) l -> StronglySorted R (rev l).
Proof.
  induction l as [|x l IH]; intros Hs; simpl; [constructor|].
  apply StronglySorted_inv in Hs as [Hs Hx].
  apply StronglySorted_app_2; [| now apply IH | repeat constructor].
  intros a b Ha Hb. apply list_elem_of_In in Ha, Hb.
  apply in_rev in Ha. destruct Hb as [<-|[]].
  rewrite List.Forall_forall in Hx. now apply Hx.
Qed.

Lemma insertionSort_sorted (l : list A) :
  StronglySorted (notAfter less) (insertionSort less l).
Proof.
  unfold insertionSort. apply StronglySorted_rev.
  apply sortLoop_sorted. constructor.
Qed.

End Sorted.

Lemma filter_all (p : A -> bool) (l : list A) :
  (forall a, In a l -> p a = true) -> List.filter p l = l.
Proof.
  induction l as [|x l IH]; intros H; simpl; [reflexivity|].
  rewrite (H x) by now left. f_equal. apply IH. intros a Ha. apply H. now right.
Qed.

Lemma filter_none (p : A -> bool) (l : list A) :
  (forall a, In a l -> p a = false) -> List.filter p l = [].
Proof.
  induction l as [|x l IH]; intros H; simpl; [reflexivity|].
  rewrite (H x) by now left. apply IH. intros a Ha. apply H. now right.
Qed.

(** A slice sorted along a property that, once reached, holds for all later
    elements, is its elements without the property followed by those with
    it. *)
Lemma sorted_split (R : A -> A -> Prop) (p : A -> bool) (l : list A) :
  (forall a b, R a b -> p a = true -> p b = true) ->
  StronglySorted R l ->
  l = List.filter (fun a => negb (p a)) l ++ List.filter p l.
Proof.
  intros Hmono Hsorted. induction Hsorted as [|x l Hs IH Hx]; simpl; [reflexivity|].
  rewrite List.Forall_forall in Hx.
  destruct (p x) eqn:Hpx; simpl.
  - rewrite (filter_none (fun a => negb (p a)) l), (filter_all p l); [reflexivity| |].
    + intros a Ha. apply (Hmono x a); auto.
    + intros a Ha. rewrite (Hmono x a); auto.
  - now rewrite <- IH.
Qed.

End InsertionSort.

Lemma StronglySorted_lookup {A} (R : A -> A -> Prop) (l : list A) (i j : nat) (a b : A) :
  StronglySorted R l -> l !! i = Some a -> l !! j = Some b -> (i < j)%nat -> R a b.
Proof.
  intros Hs. revert i j. induction Hs as [|x l Hs IH Hx]; intros i j Hi Hj Hij.
  - discriminate.
  - destruct j as [|j]; [lia|]. destruct i as [|i]; simpl in *.
    + injection Hi as <-. rewrite List.Forall_forall in Hx. apply Hx.
      apply list_elem_of_In. eapply list_elem_of_lookup_2. exact Hj.
    + apply (IH i j); [assumption | assumption | lia].
Qed.

Lemma StronglySorted_weaken {A} (R S : A -> A -> Prop) (l : list A) :
  (forall a b, R a b -> S a b) -> StronglySorted R l -> StronglySorted S l.
Proof.
  intros HRS Hs. induction Hs as [|x l Hs IH Hx]; constructor; [exact IH|].
  eapply Forall_impl; [exact Hx|]. intros b. apply HRS.
Qed.

Lemma filter_filter {A} (p q : A -> bool) (l : list A) :
  List.filter p (List.filter q l) = List.filter (fun a => p a && q a) l.
Proof.
  induction l as [|x l IH]; simpl; [reflexivity|].
  destruct (q x); simpl; [|now rewrite andb_false_r].
  rewrite andb_true_r. destruct (p x); now rewrite IH.
Qed.

(** ** The relevance sort *)

(** The comparison orders two sites exactly when the first is in an earlier
    class than the second. *)
Lemma relevanceLess_rank (q : ticket) (a b : fileSites) :
  relevanceLess q a b = (relevanceRank q a <? relevanceRank q b)%nat.
Proof.
  unfold relevanceLess, relevanceRank, siteRepo, sitePath.
  split_eqb; simpl; try reflexivity; congruence.
Qed.

Lemma relevanceRank_le2 (q : ticket) (a : fileSites) : (relevanceRank q a <= 2)%nat.
Proof. unfold relevanceRank. split_eqb; lia. Qed.

Lemma relevanceLess_asym (q : ticket) (a b : fileSites) :
  relevanceLess q a b = true -> relevanceLess q b a = false.
Proof.
  rewrite !relevanceLess_rank. intros H%Nat.ltb_lt. apply Nat.ltb_ge. lia.
Qed.

Lemma relevance_notAfter (q : ticket) (a b : fileSites) :
  notAfter (relevanceLess q) a b <-> (relevanceRank q a <= relevanceRank q b)%nat.
Proof. unfold notAfter. rewrite relevanceLess_rank. apply Nat.ltb_ge. Qed.

Lemma relevanceSort_sorted (q : ticket) (l : list fileSites) :
  StronglySorted (fun a b => (relevanceRank q a <= relevanceRank q b)%nat)
                 (relevanceSort q l).
Proof.
  assert (Hs : StronglySorted (notAfter (relevanceLess q)) (relevanceSort q l)).
  { apply insertionSort_sorted.
    - apply relevanceLess_asym.
    - intros a b c. rewrite !relevance_notAfter. lia. }
  eapply StronglySorted_weaken; [|exact Hs].
  intros a b. apply relevance_notAfter.
Qed.

(** A list sorted by class is its three classes one after the other. *)
Lemma rank_sorted_classes (q : ticket) (l : list fileSites) :
  StronglySorted (fun a b => (relevanceRank q a <= relevanceRank q b)%nat) l ->
  l = List.filter (fun fs => Nat.eqb (relevanceRank q fs) 0) l ++
      List.filter (fun fs => Nat.eqb (relevanceRank q fs) 1) l ++
      List.filter (fun fs => Nat.eqb (relevanceRank q fs) 2) l.
Proof.
  intros Hs.
  pose (p1 := fun fs => (1 <=? relevanceRank q fs)%nat).
  pose (p2 := fun fs => (2 <=? relevanceRank q fs)%nat).
  assert (E1 : l = List.filter (fun a => negb (p1 a)) l ++ List.filter p1 l).
  { apply (sorted_split _ p1 l) in Hs; [exact Hs|].
    unfold p1. intros a b Hab Ha. apply Nat.leb_le in Ha. apply Nat.leb_le. lia. }
  assert (E2 : l = List.filter (fun a => negb (p2 a)) l ++ List.filter p2 l).
  { apply (sorted_split _ p2 l) in Hs; [exact Hs|].
    unfold p2. intros a b Hab Ha. apply Nat.leb_le in Ha. apply Nat.leb_le. lia. }
  assert (E3 : List.filter p1 l =
               List.filter (fun a => p1 a && negb (p2 a)) l ++
               List.filter (fun a => p1 a && p2 a) l).
  { rewrite E2 at 1. now rewrite List.filter_app, !filter_filter. }
  rewrite E1 at 1. rewrite E3. f_equal; [|f_equal]; apply List.filter_ext; intros a;
    unfold p1, p2; pose proof (relevanceRank_le2 q a);
    destruct (relevanceRank q a) as [|[|[|n]]]; simpl; try reflexivity; lia.
Qed.

Lemma relevanceSort_class (q : ticket) (k : nat) (l : list fileSites) :
  List.filter (fun fs => Nat.eqb (relevanceRank q fs) k) (relevanceSort q l)
  = List.filter (fun fs => Nat.eqb (relevanceRank q fs) k) l.
Proof.
  apply insertionSort_stable. intros a b Hab Ha.
  rewrite relevanceLess_rank in Hab. apply Nat.ltb_lt in Hab.
  apply Nat.eqb_eq in Ha. apply Nat.eqb_neq. lia.
Qed.

Lemma relevanceSort_classes (q : ticket) (l : list fileSites) :
  relevanceSort q l =
    List.filter (fun fs => Nat.eqb (relevanceRank q fs) 0) l ++
    List.filter (fun fs => Nat.eqb (relevanceRank q fs) 1) l ++
    List.filter (fun fs => Nat.eqb (relevanceRank q fs) 2) l.
Proof.
  rewrite (rank_sorted_classes q (relevanceSort q l)) at 1
    by apply relevanceSort_sorted.
  now rewrite !relevanceSort_class.
Qed.

(** Whatever algorithm [sort.SliceStable] runs, a slice that is sorted under
    the comparison and keeps every class in its input order is the slice the
    model computes. *)
Lemma stable_sort_classes (q : ticket) (l out : list fileSites) :
  StronglySorted (notAfter (relevanceLess q)) out ->
  (forall k, List.filter (fun fs => Nat.eqb (relevanceRank q fs) k) out
             = List.filter (fun fs => Nat.eqb (relevanceRank q fs) k) l) ->
  out = relevanceSort q l.
Proof.
  intros Hs Hst. rewrite relevanceSort_classes.
  rewrite (rank_sorted_classes q out) at 1.
  - now rewrite !Hst.
  - eapply StronglySorted_weaken; [|exact Hs]. intros a b. apply relevance_notAfter.
Qed.

Lemma relevanceSort_order (q : ticket) (l : list fileSites) (i j : nat) (a b : fileSites) :
  relevanceSort q l !! i = Some a -> relevanceSort q l !! j = Some b ->
  (relevanceRank q a < relevanceRank q b)%nat -> (i < j)%nat.
Proof.
  intros Hi Hj Hab. destruct (Nat.lt_trichotomy i j) as [Hlt|[->|Hgt]]; [exact Hlt| |].
  - rewrite Hi in Hj. injection Hj as ->. lia.
  - pose proof (StronglySorted_lookup _ _ j i b a (relevanceSort_sorted q l) Hj Hi Hgt).
    simpl in *. lia.
Qed.

(** C3. The relevance sort is stable and sorts by class: its result is the
    sites of the requested file, then the other sites of the requested
    repository, then the sites of other repositories, each class in its
    input order.  So a site of the requested repository stands before every
    site of another one, and inside that repository a site at the requested
    path stands before the sites at other paths.  The input
    [repo2:x, repo1:pathB, repo1:pathA, repo2:y] comes out for the ticket
    repo1:pathA as [repo1:pathA, repo1:pathB, repo2:x, repo2:y]. *)
Theorem relevanceSort_stable_by_class (q : ticket) (l : list fileSites) :
  relevanceSort q l =
    List.filter (fun fs => String.eqb (siteRepo fs) (repo q) &&
                           String.eqb (sitePath fs) (path q)) l ++
    List.filter (fun fs => String.eqb (siteRepo fs) (repo q) &&
                           negb (String.eqb (sitePath fs) (path q))) l ++
    List.filter (fun fs => negb (String.eqb (siteRepo fs) (repo q))) l /\
  (forall i j a b,
     relevanceSort q l !! i = Some a -> relevanceSort q l !! j = Some b ->
     siteRepo a = repo q -> siteRepo b <> repo q -> (i < j)%nat) /\
  (forall i j a b,
     relevanceSort q l !! i = Some a -> relevanceSort q l !! j = Some b ->
     siteRepo a = repo q -> sitePath a = path q ->
     siteRepo b = repo q -> sitePath b <> path q -> (i < j)%nat) /\
  (let site t := mkFileSites (mkDisplayed t t) [] EmptyString EmptyString in
   relevanceSort (parseTicket "repo1:pathA")
     [site "repo2:x"; site "repo1:pathB"; site "repo1:pathA"; site "repo2:y"]
   = [site "repo1:pathA"; site "repo1:pathB"; site "repo2:x"; site "repo2:y"]).
Proof.
  split; [|split; [|split]].
  - rewrite relevanceSort_classes.
    f_equal; [|f_equal]; apply List.filter_ext; intros a;
      unfold relevanceRank; split_eqb; reflexivity.
  - intros i j a b Hi Hj Ha Hb. apply (relevanceSort_order q l i j a b Hi Hj).
    unfold relevanceRank. rewrite Ha.
    destruct (String.eqb_spec (siteRepo b) (repo q)); [contradiction|].
    rewrite String.eqb_refl. destruct (String.eqb (sitePath a) (path q)); lia.
  - intros i j a b Hi Hj Ha Hpa Hb Hpb. apply (relevanceSort_order q l i j a b Hi Hj).
    unfold relevanceRank. rewrite Ha, Hb, Hpa, !String.eqb_refl.
    destruct (String.eqb_spec (sitePath b) (path q)); [contradiction | lia].
  - reflexivity.
Qed.

(** ** Keys met before *)

Lemma has_In (k : string) (l : list string) : has k l = true <-> In k l.
Proof.
  unfold has. rewrite existsb_exists. split.
  - intros (x & Hx & ->%String.eqb_eq). exact Hx.
  - intros H. exists k. split; [exact H | apply String.eqb_refl].
Qed.

Lemma has_app (k : string) (l1 l2 : list string) : has k (l1 ++ l2) = has k l1 || has k l2.
Proof. apply existsb_app. Qed.

Lemma has_single (k h : string) : has k [h] = String.eqb k h.
Proof. unfold has. simpl. apply orb_false_r. Qed.

Lemma firstSeen_In (l : list string) (k : string) : In k (firstSeen l) <-> In k l.
Proof.
  induction l as [|h l IH]; simpl; [tauto|].
  rewrite filter_In, IH, negb_true_iff, String.eqb_neq.
  destruct (String.eqb_spec h k); intuition congruence.
Qed.

Lemma NoDup_filter_bool {A} (p : A -> bool) (l : list A) :
  List.NoDup l -> List.NoDup (List.filter p l).
Proof.
  induction 1 as [|x l Hx Hl IH]; simpl; [constructor|].
  destruct (p x); [|exact IH]. constructor; [|exact IH].
  rewrite filter_In. tauto.
Qed.

Lemma firstSeen_NoDup (l : list string) : List.NoDup (firstSeen l).
Proof.
  induction l as [|h l IH]; simpl; constructor.
  - rewrite filter_In, String.eqb_refl. simpl. intros [_ H]. discriminate.
  - now apply NoDup_filter_bool.
Qed.

Lemma firstSeen_snoc (l : list string) (k : string) :
  firstSeen (l ++ [k]) = if has k l then firstSeen l else firstSeen l ++ [k].
Proof.
  induction l as [|h l IH]; simpl; [reflexivity|].
  rewrite IH. unfold has in *. simpl.
  destruct (String.eqb_spec k h) as [->|Hne]; simpl.
  - destruct (existsb (String.eqb h) l); [reflexivity|].
    rewrite List.filter_app. simpl. rewrite String.eqb_refl. simpl.
    now rewrite app_nil_r.
  - destruct (existsb (String.eqb k) l); [reflexivity|].
    rewrite List.filter_app. simpl.
    destruct (String.eqb_spec k h); [contradiction | reflexivity].
Qed.

Lemma repeats_snoc (seen l : list string) (k : string) :
  repeats seen (l ++ [k]) = (repeats seen l + if has k (seen ++ l) then 1 else 0)%nat.
Proof.
  revert seen. induction l as [|h l IH]; intros seen; simpl.
  - rewrite app_nil_r. lia.
  - rewrite IH, <- app_assoc. simpl. lia.
Qed.

(** Each element is either the first with its key or a repeat. *)
Lemma repeats_firstSeen (l : list string) :
  (repeats [] l + length (firstSeen l))%nat = length l.
Proof.
  induction l as [|k l IH] using rev_ind; [reflexivity|].
  rewrite repeats_snoc, firstSeen_snoc, length_app. simpl.
  destruct (has k l); [|rewrite length_app]; simpl; lia.
Qed.

(** ** The sites as emitted *)

Lemma canonicalOf_snoc (c : string) (l : list fileSites) (fs : fileSites) :
  canonicalOf c (l ++ [fs]) =
    match canonicalOf c l with
    | Some g => Some g
    | None => if String.eqb (fileChecksum fs) c then Some fs else None
    end.
Proof.
  unfold canonicalOf. induction l as [|g l IH]; simpl; [reflexivity|].
  destruct (String.eqb (fileChecksum g) c); [reflexivity | exact IH].
Qed.

Lemma canonicalOf_has (c : string) (l : list fileSites) :
  has c (map fileChecksum l) = bool_decide (is_Some (canonicalOf c l)).
Proof.
  unfold canonicalOf, has. induction l as [|g l IH]; simpl; [reflexivity|].
  rewrite String.eqb_sym. destruct (String.eqb (fileChecksum g) c); simpl; [|exact IH].
  reflexivity.
Qed.

Lemma emitFrom_snoc (before l : list fileSites) (fs : fileSites) :
  emitFrom before (l ++ [fs]) =
  emitFrom before l ++ [(snippetsHash fs, emit (before ++ l) fs)].
Proof.
  revert before. induction l as [|g l IH]; intros before; simpl.
  - now rewrite app_nil_r.
  - rewrite IH, <- app_assoc. reflexivity.
Qed.

Lemma emitted_snoc (l : list fileSites) (fs : fileSites) :
  emitted (l ++ [fs]) = emitted l ++ [(snippetsHash fs, emit l fs)].
Proof. apply (emitFrom_snoc [] l fs). Qed.

Lemma emitFrom_keys (before l : list fileSites) :
  map fst (emitFrom before l) = map snippetsHash l.
Proof.
  revert before. induction l as [|g l IH]; intros before; simpl; [reflexivity|].
  now rewrite IH.
Qed.

Lemma emitted_keys (l : list fileSites) : map fst (emitted l) = map snippetsHash l.
Proof. apply emitFrom_keys. Qed.

Lemma members_app (h : string) (out1 out2 : list (string * UhFileSites)) :
  members h (out1 ++ out2) = members h out1 ++ members h out2.
Proof. unfold members. now rewrite List.filter_app, map_app. Qed.

Lemma members_single (h k : string) (s : UhFileSites) :
  members h [(k, s)] = if String.eqb k h then [s] else [].
Proof. unfold members. simpl. now destruct (String.eqb k h). Qed.

Lemma members_absent (h : string) (out : list (string * UhFileSites)) :
  has h (map fst out) = false -> members h out = [].
Proof.
  unfold members, has. induction out as [|[k s] out IH]; simpl; [reflexivity|].
  rewrite String.eqb_sym. destruct (String.eqb k h); simpl; [discriminate | exact IH].
Qed.

(** ** The loop of [groupSites] *)

Lemma GroupInv_init : GroupInv [] groupInit.
Proof. split; intros; try reflexivity; simpl; apply lookup_empty. Qed.

Lemma groupStep_emit (done : list fileSites) (st : groupState) (fs : fileSites) :
  GroupInv done st ->
  {| ContainingFile := containingFile fs;
     IsDupOf := seenTickets st !! fileChecksum fs;
     Snippets := snippets fs |} = emit done fs.
Proof. intros Hinv. unfold emit. now rewrite (inv_seen _ _ Hinv). Qed.

Lemma groupStep_seen (done : list fileSites) (st : groupState) (fs : fileSites) :
  GroupInv done st ->
  forall c,
    match seenTickets st !! fileChecksum fs with
    | Some _ => seenTickets st
    | None => <[fileChecksum fs := containingFile fs]> (seenTickets st)
    end !! c = containingFile <$> canonicalOf c (done ++ [fs]).
Proof.
  intros Hinv c. rewrite canonicalOf_snoc.
  pose proof (inv_seen _ _ Hinv c) as Hc.
  pose proof (inv_seen _ _ Hinv (fileChecksum fs)) as Hfs.
  destruct (seenTickets st !! fileChecksum fs) as [d|] eqn:Hlook.
  - rewrite Hc. destruct (canonicalOf c done) as [g|] eqn:Hcan; [reflexivity|].
    destruct (String.eqb_spec (fileChecksum fs) c) as [Heq|Hne]; [|reflexivity].
    rewrite Heq, Hcan in Hfs. discriminate.
  - destruct (String.eqb_spec (fileChecksum fs) c) as [<-|Hne].
    + rewrite lookup_insert_eq.
      destruct (canonicalOf (fileChecksum fs) done); [discriminate | reflexivity].
    + rewrite lookup_insert_ne by exact Hne. rewrite Hc.
      now destruct (canonicalOf c done).
Qed.

Lemma groupStep_fileDup (done : list fileSites) (st : groupState) (fs : fileSites) :
  GroupInv done st ->
  match seenTickets st !! fileChecksum fs with
  | Some _ => stFileDupCnt st + 1
  | None => stFileDupCnt st
  end = Z.of_nat (repeats [] (map fileChecksum (done ++ [fs]))).
Proof.
  intros Hinv. rewrite map_app. cbn [map]. rewrite repeats_snoc. cbn [app].
  rewrite Nat2Z.inj_add, <- (inv_fileDup _ _ Hinv), canonicalOf_has.
  pose proof (inv_seen _ _ Hinv (fileChecksum fs)) as Hfs.
  destruct (canonicalOf (fileChecksum fs) done) as [g|]; rewrite Hfs; simpl; lia.
Qed.

Lemma groupStep_inv (done : list fileSites) (st : groupState) (fs : fileSites) :
  GroupInv done st -> GroupInv (done ++ [fs]) (groupStep st fs).
Proof.
  intros Hinv.
  pose proof (groupStep_seen done st fs Hinv) as Hseen.
  pose proof (groupStep_fileDup done st fs Hinv) as Hdup.
  pose proof (groupStep_emit done st fs Hinv) as Hemit.
  pose proof (inv_groups _ _ Hinv (snippetsHash fs)) as Hg.
  unfold groupStep. rewrite Hemit.
  destruct (contentGroups st !! snippetsHash fs) as [g|] eqn:Hlook;
    destruct (has (snippetsHash fs) (map snippetsHash done)) eqn:Hhas;
    try discriminate; split; simpl; try assumption.
  - (* groups, existing key *)
    injection Hg as ->. intros h.
    rewrite map_app, has_app, emitted_snoc, members_app.
    cbn [map]. rewrite has_single, members_single.
    destruct (String.eqb_spec (snippetsHash fs) h) as [<-|Hne].
    + rewrite lookup_insert_eq, Hhas, String.eqb_refl. reflexivity.
    + rewrite lookup_insert_ne by exact Hne.
      rewrite (inv_groups _ _ Hinv h).
      destruct (String.eqb_spec h (snippetsHash fs)); [congruence|].
      now rewrite orb_false_r, app_nil_r.
  - rewrite map_app. cbn [map]. rewrite firstSeen_snoc, Hhas. apply (inv_order _ _ Hinv).
  - rewrite length_app, (inv_fileCnt _ _ Hinv). simpl. lia.
  - rewrite map_app. cbn [map]. rewrite repeats_snoc. cbn [app].
    rewrite Hhas, (inv_matchDup _ _ Hinv). lia.
  - (* groups, new key *)
    intros h.
    rewrite map_app, has_app, emitted_snoc, members_app.
    cbn [map]. rewrite has_single, members_single.
    destruct (String.eqb_spec (snippetsHash fs) h) as [<-|Hne].
    + rewrite lookup_insert_eq, !String.eqb_refl, orb_true_r.
      rewrite members_absent by now rewrite emitted_keys. reflexivity.
    + rewrite lookup_insert_ne by exact Hne.
      rewrite (inv_groups _ _ Hinv h).
      destruct (String.eqb_spec h (snippetsHash fs)); [congruence|].
      now rewrite orb_false_r, app_nil_r.
  - rewrite map_app. cbn [map]. rewrite firstSeen_snoc, Hhas.
    now rewrite (inv_order _ _ Hinv).
  - rewrite length_app, (inv_fileCnt _ _ Hinv). simpl. lia.
  - rewrite map_app. cbn [map]. rewrite repeats_snoc. cbn [app].
    rewrite Hhas, (inv_matchDup _ _ Hinv). lia.
Qed.

Lemma groupLoop_from (done l : list fileSites) (st : groupState) :
  GroupInv done st -> GroupInv (done ++ l) (fold_left groupStep l st).
Proof.
  revert done st. induction l as [|fs l IH]; intros done st Hinv; simpl.
  - now rewrite app_nil_r.
  - replace (done ++ fs :: l) with ((done ++ [fs]) ++ l) by now rewrite <- app_assoc.
    apply IH. now apply groupStep_inv.
Qed.

Lemma groupLoop_inv (l : list fileSites) : GroupInv l (groupLoop l).
Proof. apply (groupLoop_from [] l groupInit GroupInv_init). Qed.

(** ** From the loop to the result *)

Lemma lookup_map {A B} (f : A -> B) (l : list A) (i : nat) :
  map f l !! i = f <$> l !! i.
Proof.
  revert i. induction l as [|x l IH]; intros [|i]; simpl; try reflexivity. apply IH.
Qed.

Lemma In_lookup {A} (l : list A) (x : A) : In x l <-> exists i, l !! i = Some x.
Proof. rewrite <- list_elem_of_In. apply list_elem_of_lookup. Qed.

Lemma groups_members (l : list fileSites) :
  groups (groupSites l) =
  map (fun h => mkGroup (members h (emitted l))) (firstSeen (map snippetsHash l)).
Proof.
  unfold groupSites. simpl. pose proof (groupLoop_inv l) as Hinv.
  rewrite (inv_order _ _ Hinv). apply map_ext_in. intros h Hh.
  unfold groupOf. rewrite (inv_groups _ _ Hinv h).
  apply (proj1 (firstSeen_In _ _)) in Hh. apply (proj2 (has_In _ _)) in Hh.
  now rewrite Hh.
Qed.

(** Splitting a keyed list by the keys of a duplicate-free list that holds
    them all only rearranges it. *)
Lemma members_cons (h k : string) (s : UhFileSites) (out : list (string * UhFileSites)) :
  members h ((k, s) :: out) = (if String.eqb k h then [s] else []) ++ members h out.
Proof. rewrite <- members_single. apply (members_app h [(k, s)] out). Qed.

Lemma members_nil_all (order : list string) :
  concat (map (fun h => members h []) order) = [].
Proof. induction order as [|h order IH]; simpl; [reflexivity | exact IH]. Qed.

Lemma grouping_cons (k : string) (s : UhFileSites) (out : list (string * UhFileSites))
    (order : list string) :
  List.NoDup order ->
  Permutation (concat (map (fun h => members h ((k, s) :: out)) order))
              ((if has k order then [s] else []) ++
               concat (map (fun h => members h out) order)).
Proof.
  induction 1 as [|h order Hh Hnd IH]; simpl; [reflexivity|].
  rewrite members_cons, IH. unfold has in *. simpl.
  destruct (String.eqb_spec k h) as [->|Hne]; simpl.
  - assert (Hno : existsb (String.eqb h) order = false).
    { apply not_true_is_false. intros Hin. apply Hh. now apply has_In. }
    rewrite Hno. simpl. reflexivity.
  - destruct (existsb (String.eqb k) order); simpl; [|reflexivity].
    symmetry. apply Permutation_middle.
Qed.

Lemma grouping_perm (out : list (string * UhFileSites)) (order : list string) :
  List.NoDup order -> (forall k, In k (map fst out) -> In k order) ->
  Permutation (concat (map (fun h => members h out) order)) (map snd out).
Proof.
  intros Hnd. induction out as [|[k s] out IH]; intros Hall.
  - now rewrite members_nil_all.
  - rewrite grouping_cons by exact Hnd.
    assert (Hk : has k order = true) by (apply has_In, Hall; now left).
    rewrite Hk. simpl. constructor. apply IH. intros k' Hk'. apply Hall. now right.
Qed.

Lemma groups_perm (l : list fileSites) :
  Permutation (concat (map Files (groups (groupSites l)))) (map snd (emitted l)).
Proof.
  rewrite groups_members, map_map. simpl.
  apply grouping_perm; [apply firstSeen_NoDup|].
  intros k Hk. rewrite emitted_keys in Hk. now apply firstSeen_In.
Qed.

Lemma filter_length_perm {A} (p : A -> bool) (l l' : list A) :
  Permutation l l' -> length (List.filter p l) = length (List.filter p l').
Proof.
  induction 1 as [|x l l' _ IH|x y l|l l' l'' _ IH1 _ IH2]; simpl.
  - reflexivity.
  - destruct (p x); simpl; now rewrite IH.
  - destruct (p x), (p y); reflexivity.
  - now rewrite IH1.
Qed.

Lemma emitFrom_lookup (before l : list fileSites) (i : nat) :
  emitFrom before l !! i =
  (fun fs => (snippetsHash fs, emit (before ++ take i l) fs)) <$> l !! i.
Proof.
  revert before i. induction l as [|g l IH]; intros before [|i]; simpl; try reflexivity.
  - now rewrite app_nil_r.
  - rewrite IH, <- app_assoc. reflexivity.
Qed.

Lemma emitted_lookup (l : list fileSites) (i : nat) (fs : fileSites) :
  l !! i = Some fs -> emitted l !! i = Some (snippetsHash fs, emit (take i l) fs).
Proof. intros H. unfold emitted. now rewrite emitFrom_lookup, H. Qed.

Lemma emitted_dups (l : list fileSites) :
  length (List.filter isDup (map snd (emitted l))) = repeats [] (map fileChecksum l).
Proof.
  induction l as [|fs l IH] using rev_ind; [reflexivity|].
  rewrite emitted_snoc, !map_app, List.filter_app, length_app, IH.
  cbn [map]. rewrite repeats_snoc. cbn [app]. f_equal.
  rewrite canonicalOf_has. unfold isDup, emit. simpl.
  now destruct (canonicalOf (fileChecksum fs) l).
Qed.

Lemma canonicalOf_none (c : string) (l : list fileSites) :
  (forall j g, l !! j = Some g -> fileChecksum g <> c) -> canonicalOf c l = None.
Proof.
  unfold canonicalOf. induction l as [|x l IH]; intros H; simpl; [reflexivity|].
  destruct (String.eqb_spec (fileChecksum x) c) as [Heq|_].
  - now destruct (H 0%nat x eq_refl).
  - apply IH. intros j g Hj. apply (H (S j) g Hj).
Qed.

Lemma canonicalOf_first (c : string) (l : list fileSites) (j : nat) (g : fileSites) :
  l !! j = Some g -> fileChecksum g = c ->
  (forall k g', (k < j)%nat -> l !! k = Some g' -> fileChecksum g' <> c) ->
  canonicalOf c l = Some g.
Proof.
  unfold canonicalOf. revert j. induction l as [|x l IH]; intros j Hj Hc Hfirst.
  - discriminate.
  - simpl. destruct j as [|j]; simpl in Hj.
    + injection Hj as ->. now rewrite Hc, String.eqb_refl.
    + destruct (String.eqb_spec (fileChecksum x) c) as [Heq|_].
      * destruct (Hfirst 0%nat x); [lia | reflexivity | exact Heq].
      * apply (IH j Hj Hc). intros k g' Hk Hg'. apply (Hfirst (S k) g'); [lia | exact Hg'].
Qed.

(** The groups follow the first occurrences of their digests. *)
Lemma firstSeen_order (ks : list string) (a b : nat) (h1 h2 : string) :
  firstSeen ks !! a = Some h1 -> firstSeen ks !! b = Some h2 -> (a < b)%nat ->
  exists i, ks !! i = Some h1 /\ forall j, ks !! j = Some h2 -> (i < j)%nat.
Proof.
  revert a b h1 h2. induction ks as [|k ks IH] using rev_ind; intros a b h1 h2 Ha Hb Hab.
  - discriminate.
  - rewrite firstSeen_snoc in Ha, Hb. destruct (has k ks) eqn:Hk.
    + destruct (IH a b h1 h2 Ha Hb Hab) as (i & Hi & Hfirst).
      exists i. split; [now apply lookup_app_l_Some|].
      intros j Hj. apply lookup_snoc_Some in Hj as [[_ Hj]|[-> _]]; [now apply Hfirst|].
      now apply lookup_lt_Some in Hi.
    + apply lookup_snoc_Some in Hb as [[Hlen Hb]|[-> <-]].
      * apply lookup_snoc_Some in Ha as [[_ Ha]|[-> _]]; [|lia].
        destruct (IH a b h1 h2 Ha Hb Hab) as (i & Hi & Hfirst).
        exists i. split; [now apply lookup_app_l_Some|].
        intros j Hj. apply lookup_snoc_Some in Hj as [[_ Hj]|[-> _]]; [now apply Hfirst|].
        now apply lookup_lt_Some in Hi.
      * apply lookup_snoc_Some in Ha as [[_ Ha]|[-> _]]; [|lia].
        assert (Hin : In h1 ks).
        { apply firstSeen_In, In_lookup. eauto. }
        apply In_lookup in Hin as [i Hi]. exists i.
        split; [now apply lookup_app_l_Some|].
        intros j Hj. apply lookup_snoc_Some in Hj as [[_ Hj]|[-> _]].
        -- assert (Hin : has k ks = true) by (apply has_In, In_lookup; eauto).
           congruence.
        -- now apply lookup_lt_Some in Hi.
Qed.

(** C1. The sites of the groups are the input sites, each emitted once with
    its own file and snippets.  A site with no earlier site of the same
    checksum is emitted with [IsDupOf] nil; a site with an earlier one is
    emitted with [IsDupOf] the displayed file of the first site carrying the
    checksum.  The [fileDupCnt] counter is the number of emitted sites that
    are marked, which is the number of sites less the number of distinct
    checksums. *)
Theorem groupSites_file_dedup (l : list fileSites) :
  let r := groupSites l in
  let out := concat (map Files (groups r)) in
  Permutation out (map snd (emitted l)) /\
  (forall i fs, l !! i = Some fs ->
     exists s, map snd (emitted l) !! i = Some s /\
       ContainingFile s = containingFile fs /\ Snippets s = snippets fs /\
       ((forall j g, (j < i)%nat -> l !! j = Some g ->
                     fileChecksum g <> fileChecksum fs) ->
        IsDupOf s = None) /\
       (forall j g, (j < i)%nat -> l !! j = Some g ->
          fileChecksum g = fileChecksum fs ->
          (forall k g', (k < j)%nat -> l !! k = Some g' ->
                        fileChecksum g' <> fileChecksum fs) ->
          IsDupOf s = Some (containingFile g))) /\
  fileDupCnt r = Z.of_nat (length (List.filter isDup out)) /\
  fileDupCnt r =
    Z.of_nat (length l) - Z.of_nat (length (firstSeen (map fileChecksum l))).
Proof.
  intros r out. pose proof (groups_perm l) as Hperm.
  assert (Hcnt : fileDupCnt r = Z.of_nat (repeats [] (map fileChecksum l))).
  { apply (inv_fileDup _ _ (groupLoop_inv l)). }
  split; [exact Hperm|]. split; [|split].
  - intros i fs Hi. exists (emit (take i l) fs).
    rewrite lookup_map, (emitted_lookup l i fs Hi). simpl.
    split; [reflexivity|]. split; [reflexivity|]. split; [reflexivity|]. split.
    + intros Hnone. rewrite canonicalOf_none; [reflexivity|].
      intros j g Hj. apply lookup_take_Some in Hj as [Hj Hlt]. now apply (Hnone j g).
    + intros j g Hji Hj Hc Hfirst.
      rewrite (canonicalOf_first _ _ j g); [reflexivity| | exact Hc |].
      * now rewrite lookup_take_lt.
      * intros k g' Hk Hg'. apply lookup_take_Some in Hg' as [Hg' _].
        now apply (Hfirst k g').
  - unfold out, r. rewrite (filter_length_perm isDup _ _ Hperm), emitted_dups. exact Hcnt.
  - rewrite Hcnt. pose proof (repeats_firstSeen (map fileChecksum l)) as H.
    rewrite length_map in H. lia.
Qed.

(** The digest of a site is a function of the matched lines alone. *)
Lemma siteOf_hash (sha1Sum : string -> string) (f : FileMatch) (fs : fileSites) :
  siteOf sha1Sum f = Some fs ->
  snippetsHash fs = sha1Sum (hashedBytes f) /\ fileChecksum fs = Checksum f.
Proof.
  unfold siteOf. destruct (mapM snippetOf (LineMatches f)) as [snips|]; [|discriminate].
  simpl. intros [= <-]. split; reflexivity.
Qed.

(** C2. There is one group per distinct digest, in the order in which the
    digests are first met; a group holds the emitted sites of its digest in
    input order, so sites with the same digest are in the same group; and
    the [matchDupCnt] counter is the number of sites that joined a group
    already opened by an earlier site: all the sites but the first of each
    group.  The digest is that of the matched lines put end to end, so two
    files with the same matched lines get the same digest, whatever else
    they hold. *)
Theorem groupSites_match_grouping (l : list fileSites) :
  let r := groupSites l in
  let order := firstSeen (map snippetsHash l) in
  groups r = map (fun h => mkGroup (members h (emitted l))) order /\
  List.NoDup order /\
  (forall h, In h order <-> exists fs, In fs l /\ snippetsHash fs = h) /\
  (forall a b h1 h2, order !! a = Some h1 -> order !! b = Some h2 -> (a < b)%nat ->
     exists i fs, l !! i = Some fs /\ snippetsHash fs = h1 /\
       forall j g, l !! j = Some g -> snippetsHash g = h2 -> (i < j)%nat) /\
  (forall i fs, l !! i = Some fs ->
     exists s k G,
       emitted l !! i = Some (snippetsHash fs, s) /\
       ContainingFile s = containingFile fs /\ Snippets s = snippets fs /\
       order !! k = Some (snippetsHash fs) /\ groups r !! k = Some G /\
       In s (Files G)) /\
  matchDupCnt r = Z.of_nat (length l) - Z.of_nat (length (groups r)) /\
  (forall sha1Sum f1 f2 s1 s2,
     siteOf sha1Sum f1 = Some s1 -> siteOf sha1Sum f2 = Some s2 ->
     map Line (LineMatches f1) = map Line (LineMatches f2) ->
     snippetsHash s1 = snippetsHash s2).
Proof.
  intros r order. pose proof (groups_members l) as Hg. fold r order in Hg.
  split; [exact Hg|]. split; [apply firstSeen_NoDup|].
  split; [|split; [|split; [|split]]].
  - intros h. unfold order. rewrite firstSeen_In, in_map_iff. firstorder.
  - intros a b h1 h2 Ha Hb Hab.
    destruct (firstSeen_order _ a b h1 h2 Ha Hb Hab) as (i & Hi & Hfirst).
    rewrite lookup_map in Hi. destruct (l !! i) as [fs|] eqn:Hfs; [|discriminate].
    injection Hi as Hi. exists i, fs. split; [exact Hfs|]. split; [exact Hi|].
    intros j g Hj Hh. apply Hfirst. now rewrite lookup_map, Hj, <- Hh.
  - intros i fs Hi. pose proof (emitted_lookup l i fs Hi) as He.
    assert (Hin : In (snippetsHash fs) order).
    { apply firstSeen_In, in_map, In_lookup. eauto. }
    apply In_lookup in Hin as [k Hk].
    exists (emit (take i l) fs), k, (mkGroup (members (snippetsHash fs) (emitted l))).
    split; [exact He|]. split; [reflexivity|]. split; [reflexivity|].
    split; [exact Hk|]. split.
    + now rewrite Hg, lookup_map, Hk.
    + simpl. unfold members.
      apply (in_map snd _ (snippetsHash fs, emit (take i l) fs)), filter_In.
      split; [apply In_lookup; eauto | apply String.eqb_refl].
  - rewrite Hg, length_map.
    assert (Hcnt : matchDupCnt r = Z.of_nat (repeats [] (map snippetsHash l))).
    { apply (inv_matchDup _ _ (groupLoop_inv l)). }
    rewrite Hcnt. pose proof (repeats_firstSeen (map snippetsHash l)) as H.
    rewrite length_map in H. unfold order. lia.
  - intros sha1Sum f1 f2 s1 s2 [H1 _]%siteOf_hash [H2 _]%siteOf_hash Hlines.
    rewrite H1, H2. unfold hashedBytes. now rewrite Hlines.
Qed.

(** C4 (the code at the failing input).  Two files with the same checksum
    whose matched lines differ: the second is counted as a duplicate file
    and opens a group of its own, so [fileDupCnt] is 1 and [matchDupCnt] is
    0, against the comment on [UhRefCounts.DupMatches]. *)
Theorem groupSites_dupMatches_below_dupFiles :
  let site t h := mkFileSites (mkDisplayed t t) [] "c0ffee" h in
  let r := groupSites [site "repo:vendor/foo_a.txt" "h1"; site "repo:vendor/foo_b.txt" "h2"] in
  fileDupCnt r = 1 /\ matchDupCnt r = 0 /\ ~ (matchDupCnt r >= fileDupCnt r).
Proof. vm_compute. repeat split; intros H; now apply H. Qed.

(** The comment on [DupMatches] does hold for inputs in which sites with the
    same checksum also have the same digest of matched lines. *)
Lemma repeats_le (l : list fileSites) :
  (forall a b, In a l -> In b l -> fileChecksum a = fileChecksum b ->
               snippetsHash a = snippetsHash b) ->
  (repeats [] (map fileChecksum l) <= repeats [] (map snippetsHash l))%nat.
Proof.
  induction l as [|fs l IH] using rev_ind; intros Hsame; [reflexivity|].
  rewrite !map_app. cbn [map]. rewrite !repeats_snoc. cbn [app].
  assert (IH' : (repeats [] (map fileChecksum l) <= repeats [] (map snippetsHash l))%nat).
  { apply IH. intros a b Ha Hb. apply Hsame; apply in_or_app; now left. }
  destruct (has (fileChecksum fs) (map fileChecksum l)) eqn:Hc; [|lia].
  apply has_In, in_map_iff in Hc as (g & Hg & Hin).
  assert (Hh : has (snippetsHash fs) (map snippetsHash l) = true).
  { apply has_In, in_map_iff. exists g. split; [|exact Hin].
    apply Hsame; [apply in_or_app; now left | apply in_or_app; right; now left | exact Hg]. }
  rewrite Hh. lia.
Qed.

Lemma groupSites_dupMatches_ge (l : list fileSites) :
  (forall a b, In a l -> In b l -> fileChecksum a = fileChecksum b ->
               snippetsHash a = snippetsHash b) ->
  matchDupCnt (groupSites l) >= fileDupCnt (groupSites l).
Proof.
  intros Hsame. pose proof (groupLoop_inv l) as Hinv. unfold groupSites. simpl.
  rewrite (inv_fileDup _ _ Hinv), (inv_matchDup _ _ Hinv).
  pose proof (repeats_le l Hsame). lia.
Qed.

(** ** The declaration pass *)

Lemma append_inj_length (a b c d : string) :
  String.length a = String.length c -> a +:+ b = c +:+ d -> a = c.
Proof.
  revert c. induction a as [|x a IH]; intros [|y c] Hlen Heq; try discriminate.
  - reflexivity.
  - simpl in Heq. injection Heq as -> Heq. f_equal. apply (IH c); [|exact Heq].
    simpl in Hlen. lia.
Qed.

Lemma declPattern_length (selection : string) :
  String.length (declPattern selection) = (4 * String.length selection + 58)%nat.
Proof. unfold declPattern. rewrite !length_append. simpl. lia. Qed.

(** Distinct selections give distinct patterns. *)
Lemma declPattern_inj (s1 s2 : string) : declPattern s1 = declPattern s2 -> s1 = s2.
Proof.
  intros Heq. assert (Hlen : String.length s1 = String.length s2).
  { apply (f_equal String.length) in Heq. rewrite !declPattern_length in Heq. lia. }
  unfold declPattern in Heq. simpl in Heq. injection Heq as Heq.
  apply (append_inj_length _ _ _ _ Hlen Heq).
Qed.

(** C9 (counterexample).  The expression is not a fixed one: the selections
    [a] and [b] give two different patterns. *)
Lemma declPattern_not_fixed :
  ~ (exists pattern, forall selection, declPattern selection = pattern).
Proof.
  intros [pattern Hfix]. pose proof (Hfix "a") as Ha. pose proof (Hfix "b") as Hb.
  rewrite <- Hb in Ha. apply declPattern_inj in Ha. discriminate.
Qed.

Lemma declLoop_In (Regexp : Type) (MatchString : Regexp -> string -> bool)
    (re : Regexp) (sites : list fileSites) (d : fileSites) :
  In d (declLoop Regexp MatchString re sites) <->
  exists fs s, In fs sites /\ In s (snippets fs) /\ MatchString re (Text s) = true /\
    d = mkFileSites (containingFile fs) [s] (fileChecksum fs) (snippetsHash fs).
Proof.
  unfold declLoop. rewrite in_flat_map. split.
  - intros (fs & Hfs & Hd). apply in_flat_map in Hd as (s & Hs & Hd).
    destruct (MatchString re (Text s)) eqn:Hm; [|destruct Hd].
    destruct Hd as [<-|[]]. exists fs, s. auto.
  - intros (fs & s & Hfs & Hs & Hm & ->). exists fs. split; [exact Hfs|].
    apply in_flat_map. exists s. split; [exact Hs|]. rewrite Hm. now left.
Qed.

(** C9 (amended).  The expression the matched lines are tested against is
    built from the selection: the selection stands, as it is, at four places
    of a fixed template, and distinct selections give distinct expressions.
    When the expression compiles, the declaration pass yields, site after
    site and snippet after snippet, a copy of the site holding that snippet
    alone for every snippet whose text matches. *)
Theorem declSites_from_selection (Regexp : Type)
    (regexpCompile : string -> option Regexp) (MatchString : Regexp -> string -> bool)
    (selection : string) (re : Regexp) (sites : list fileSites) :
  regexpCompile
    ("^((^" +:+ selection +:+ "\s*($|::))|(\s+[{,]\s*" +:+ selection +:+
     "\s*::)|(data\s+" +:+ selection +:+ "\b)|(\s+[=|]\s*" +:+ selection +:+ "))")
  = Some re ->
  (forall other, declPattern other = declPattern selection -> other = selection) /\
  exists decls,
    declSites Regexp regexpCompile MatchString selection sites = Some decls /\
    decls = flat_map (fun fs =>
              map (fun s => mkFileSites (containingFile fs) [s]
                                        (fileChecksum fs) (snippetsHash fs))
                  (List.filter (fun s => MatchString re (Text s)) (snippets fs)))
              sites /\
    (forall d, In d decls <->
       exists fs s, In fs sites /\ In s (snippets fs) /\
         MatchString re (Text s) = true /\
         d = mkFileSites (containingFile fs) [s] (fileChecksum fs) (snippetsHash fs)).
Proof.
  intros Hre. split; [intros other; apply declPattern_inj|].
  exists (declLoop Regexp MatchString re sites). split; [|split].
  - unfold declSites. change (regexpCompile (declPattern selection) = Some re) in Hre.
    now rewrite Hre.
  - unfold declLoop. apply flat_map_ext. intros fs.
    induction (snippets fs) as [|s ss IH]; simpl; [reflexivity|].
    destruct (MatchString re (Text s)); simpl; now rewrite IH.
  - apply declLoop_In.
Qed.

(** ** The order on strings *)

Lemma ltb_lt (a b : string) :
  String.ltb a b = true <-> OrderedTypeEx.String_as_OT.lt a b.
Proof.
  rewrite <- OrderedTypeEx.String_as_OT.cmp_lt.
  unfold String.ltb, OrderedTypeEx.String_as_OT.cmp.
  destruct (String.compare a b); split; intros H; congruence.
Qed.

Lemma ltb_trans (a b c : string) :
  String.ltb a b = true -> String.ltb b c = true -> String.ltb a c = true.
Proof. rewrite !ltb_lt. apply OrderedTypeEx.String_as_OT.lt_trans. Qed.

Lemma ltb_asym (a b : string) : String.ltb a b = true -> String.ltb b a = false.
Proof.
  unfold String.ltb. rewrite (String.compare_antisym b a).
  now destruct (String.compare a b).
Qed.

Lemma ltb_total (a b : string) :
  String.ltb a b = false -> String.ltb b a = false -> a = b.
Proof.
  unfold String.ltb. rewrite (String.compare_antisym b a).
  destruct (String.compare a b) eqn:Hc; simpl; try discriminate.
  intros _ _. now apply String.compare_eq_iff.
Qed.

Lemma ltb_negtrans (x y z : string) :
  String.ltb y x = false -> String.ltb z y = false -> String.ltb z x = false.
Proof.
  intros Hyx Hzy. destruct (String.ltb z x) eqn:Hzx; [|reflexivity].
  destruct (String.ltb x y) eqn:Hxy.
  - rewrite (ltb_trans z x y Hzx Hxy) in Hzy. discriminate.
  - rewrite (ltb_total x y Hxy Hyx) in Hzx. congruence.
Qed.

(** ** Splitting a path *)

Section SplitFacts.
Import GoStrings.

Lemma cut_lacks (c : ascii) (s : string) : lacks c s = true -> cut c s = None.
Proof.
  induction s as [|x s IH]; simpl; [reflexivity|].
  intros [Hx Hs]%andb_prop. apply negb_true_iff in Hx. now rewrite Hx, IH.
Qed.

Lemma Count_lacks (c : ascii) (s : string) : lacks c s = true -> Count c s = O.
Proof.
  induction s as [|x s IH]; simpl; [reflexivity|].
  intros [Hx Hs]%andb_prop. apply negb_true_iff in Hx. now rewrite Hx, IH.
Qed.

(** The text before the first [c], when there is one. *)
Lemma cut_found (c : ascii) (s : string) :
  lacks c s = false ->
  exists a rest, cut c s = Some (a, rest) /\ s = a +:+ String c rest /\
                 lacks c a = true /\ Count c s = S (Count c rest).
Proof.
  induction s as [|x s IH]; simpl; [discriminate|].
  destruct (Ascii.eqb_spec x c) as [->|Hne]; simpl.
  - intros _. exists EmptyString, s. auto.
  - intros Hs. destruct (IH Hs) as (a & rest & Hcut & -> & Ha & Hcnt).
    exists (String x a), rest. rewrite Hcut. simpl.
    apply Ascii.eqb_neq in Hne. rewrite Hne. auto.
Qed.

Lemma append_empty_r (s : string) : s +:+ EmptyString = s.
Proof.
  induction s as [|x s IH]; [reflexivity|].
  change (String x (s +:+ EmptyString) = String x s). now rewrite IH.
Qed.

(** The first piece of [Split] and the number of pieces. *)
Lemma Split_first (s : string) (c : ascii) :
  exists rest,
    s = hd EmptyString (Split s c) +:+ rest /\
    lacks c (hd EmptyString (Split s c)) = true /\
    (length (Split s c) =? 1)%nat = lacks c s /\
    (lacks c s = true -> rest = EmptyString) /\
    (lacks c s = false -> exists r, rest = String c r).
Proof.
  unfold Split, SplitN. simpl. destruct (lacks c s) eqn:Hl.
  - rewrite (Count_lacks c s Hl). simpl. exists EmptyString.
    split; [|split; [exact Hl | split; [reflexivity | split; [reflexivity | discriminate]]]].
    symmetry. apply append_empty_r.
  - destruct (cut_found c s Hl) as (a & rest & Hcut & Hs & Ha & Hcnt).
    rewrite Hcnt. simpl. rewrite Hcut. simpl. exists (String c rest).
    split; [exact Hs|]. split; [exact Ha|]. split.
    + pose proof (genSplit_nonempty c (Count c rest) rest).
      destruct (genSplit c (Count c rest) rest); [contradiction | reflexivity].
    + split; [discriminate | eauto].
Qed.

End SplitFacts.

(** ** The loop of the file-tree assembler *)

Lemma TreeInv_init (topRepo topPath : string) : TreeInv topRepo topPath [] (∅, []).
Proof.
  split; simpl.
  - intros d. rewrite lookup_empty. split; [intros [? ?]; discriminate | tauto].
  - constructor.
  - tauto.
  - tauto.
Qed.

(** A file that is skipped or whose name is taken leaves the state as it
    is. *)
Lemma TreeInv_keep (topRepo topPath : string) (done : list FileMatch)
    (st : gmap string bool * list FileTree) (f : FileMatch) :
  TreeInv topRepo topPath done st ->
  (Repository f = topRepo -> In (currentPart topPath f) (map Display st.2)) ->
  TreeInv topRepo topPath (done ++ [f]) st.
Proof.
  intros Hinv Hf. split.
  - apply (tree_seen _ _ _ _ Hinv).
  - apply (tree_nodup _ _ _ _ Hinv).
  - intros t Ht. destruct (tree_from _ _ _ _ Hinv t Ht) as (i & g & Hi & Hg & -> & Hfirst).
    exists i, g. split; [now apply lookup_app_l_Some|]. split; [exact Hg|].
    split; [reflexivity|]. intros j g' Hj Hg'. apply (Hfirst j g' Hj).
    apply lookup_lt_Some in Hi. rewrite lookup_app_l in Hg' by lia. exact Hg'.
  - intros g [Hg|[<-|[]]]%in_app_or Hrepo; [|now apply Hf].
    now apply (tree_all _ _ _ _ Hinv).
Qed.

Lemma treeStep_inv (topRepo topPath : string) (done : list FileMatch)
    (st : gmap string bool * list FileTree) (f : FileMatch) :
  TreeInv topRepo topPath done st ->
  TreeInv topRepo topPath (done ++ [f]) (treeStep topRepo topPath st f).
Proof.
  intros Hinv. unfold treeStep.
  destruct (String.eqb_spec (Repository f) topRepo) as [Hrepo|Hrepo]; simpl.
  2: { apply TreeInv_keep; [exact Hinv | congruence]. }
  destruct (st.1 !! currentPart topPath f) as [b|] eqn:Hseen.
  { apply TreeInv_keep; [exact Hinv|]. intros _.
    apply (tree_seen _ _ _ _ Hinv). rewrite Hseen. eauto. }
  assert (Hfresh : ~ In (currentPart topPath f) (map Display st.2)).
  { intros Hin. apply (tree_seen _ _ _ _ Hinv) in Hin as [b Hb]. congruence. }
  split; simpl.
  - intros d. rewrite map_app, in_app_iff. simpl.
    destruct (String.eqb_spec (currentPart topPath f) d) as [<-|Hne].
    + rewrite lookup_insert_eq. split; eauto.
    + rewrite lookup_insert_ne by exact Hne. rewrite (tree_seen _ _ _ _ Hinv d).
      tauto.
  - rewrite map_app. simpl.
    apply (Permutation_NoDup (Permutation_cons_append _ _)).
    constructor; [exact Hfresh | apply (tree_nodup _ _ _ _ Hinv)].
  - intros t [Ht|[<-|[]]]%in_app_or.
    + destruct (tree_from _ _ _ _ Hinv t Ht) as (i & g & Hi & Hg & -> & Hfirst).
      exists i, g. split; [now apply lookup_app_l_Some|]. split; [exact Hg|].
      split; [reflexivity|]. intros j g' Hj Hg'. apply (Hfirst j g' Hj).
      apply lookup_lt_Some in Hi. rewrite lookup_app_l in Hg' by lia. exact Hg'.
    + exists (length done), f. split; [now apply list_lookup_middle|].
      split; [exact Hrepo|]. split; [reflexivity|].
      intros j g Hj Hg Hgrepo Heq. rewrite lookup_app_l in Hg by exact Hj.
      apply Hfresh. rewrite <- Heq. apply (tree_all _ _ _ _ Hinv g); [|exact Hgrepo].
      apply In_lookup. eauto.
  - intros g [Hg|[<-|[]]]%in_app_or Hgrepo; rewrite map_app, in_app_iff.
    + left. now apply (tree_all _ _ _ _ Hinv).
    + right. now left.
Qed.

Lemma treeLoop_from (topRepo topPath : string) (done files : list FileMatch)
    (st : gmap string bool * list FileTree) :
  TreeInv topRepo topPath done st ->
  TreeInv topRepo topPath (done ++ files) (fold_left (treeStep topRepo topPath) files st).
Proof.
  revert done st. induction files as [|f files IH]; intros done st Hinv; simpl.
  - now rewrite app_nil_r.
  - replace (done ++ f :: files) with ((done ++ [f]) ++ files) by now rewrite <- app_assoc.
    apply IH. now apply treeStep_inv.
Qed.

Lemma treeLoop_inv (topRepo topPath : string) (files : list FileMatch) :
  TreeInv topRepo topPath files (treeLoop topRepo topPath files).
Proof. apply (treeLoop_from topRepo topPath [] files _ (TreeInv_init _ _)). Qed.

(** Files of other repositories do not change the state. *)
Lemma treeLoop_filter (topRepo topPath : string) (files : list FileMatch)
    (st : gmap string bool * list FileTree) :
  fold_left (treeStep topRepo topPath) files st =
  fold_left (treeStep topRepo topPath)
    (List.filter (fun f => String.eqb (Repository f) topRepo) files) st.
Proof.
  revert st. induction files as [|f files IH]; intros st; simpl; [reflexivity|].
  destruct (String.eqb (Repository f) topRepo) eqn:Hrepo; simpl.
  - apply IH.
  - rewrite <- IH. unfold treeStep at 2. now rewrite Hrepo.
Qed.

Lemma sourceLoop_filter (repo : string) (files : list FileMatch) :
  sourceLoop repo files =
  sourceLoop repo (List.filter (fun f => String.eqb (Repository f) repo) files).
Proof.
  induction files as [|f files IH]; simpl; [reflexivity|].
  destruct (String.eqb (Repository f) repo) eqn:Hrepo; simpl; [now rewrite Hrepo | exact IH].
Qed.

Lemma sourceLoop_Some (repo : string) (files : list FileMatch) (body : string) :
  sourceLoop repo files = Some body ->
  exists f, In f files /\ Repository f = repo /\ Content f = body.
Proof.
  induction files as [|f files IH]; simpl; [discriminate|].
  destruct (String.eqb_spec (Repository f) repo) as [Hrepo|Hrepo]; simpl.
  - intros [= <-]. exists f. auto.
  - intros H. destruct (IH H) as (g & Hg & Hr & Hc). exists g. auto.
Qed.

(** ** The order of the children *)

Lemma treeLess_asym (a b : FileTree) : treeLess a b = true -> treeLess b a = false.
Proof.
  unfold treeLess. destruct (IsFile a), (IsFile b); simpl; try congruence; apply ltb_asym.
Qed.

Lemma treeLess_negtrans (a b c : FileTree) :
  notAfter treeLess a b -> notAfter treeLess b c -> notAfter treeLess a c.
Proof.
  unfold notAfter, treeLess.
  destruct (IsFile a), (IsFile b), (IsFile c); simpl; try congruence;
    intros Hba Hcb; apply (ltb_negtrans _ _ _ Hba Hcb).
Qed.

Lemma Slice_sorted (l : list FileTree) :
  StronglySorted (notAfter treeLess) (GoSort.Slice treeLess l).
Proof. apply insertionSort_sorted; [apply treeLess_asym | apply treeLess_negtrans]. Qed.

Lemma NoDup_map_inj {A B} (f : A -> B) (l : list A) (a b : A) :
  List.NoDup (map f l) -> In a l -> In b l -> f a = f b -> a = b.
Proof.
  induction l as [|x l IH]; simpl; intros Hnd Ha Hb Hab; [contradiction|].
  apply NoDup_cons_iff in Hnd as [Hx Hnd].
  destruct Ha as [->|Ha], Hb as [->|Hb]; try reflexivity.
  - exfalso. apply Hx. rewrite Hab. now apply in_map.
  - exfalso. apply Hx. rewrite <- Hab. now apply in_map.
  - now apply IH.
Qed.

(** Whatever algorithm [sort.Slice] runs, a rearrangement of nodes with
    distinct names that is sorted under the comparison is the slice the
    model computes. *)
Lemma sorted_children_unique (l out : list FileTree) :
  List.NoDup (map Display l) -> Permutation out l ->
  StronglySorted (notAfter treeLess) out ->
  out = GoSort.Slice treeLess l.
Proof.
  intros Hnd Hperm Hs.
  apply (StronglySorted_unique_strong (notAfter treeLess)).
  - intros x1 x2 H1 H2 H12 H21. apply list_elem_of_In in H1, H2.
    apply (Permutation_in _ Hperm) in H1.
    apply insertionSort_In in H2.
    apply (NoDup_map_inj Display l x1 x2 Hnd H1 H2).
    unfold notAfter, treeLess in H12, H21.
    destruct (IsFile x1), (IsFile x2); simpl in *; try congruence;
      now apply ltb_total.
  - exact Hs.
  - apply Slice_sorted.
  - rewrite Hperm. symmetry. apply insertionSort_perm.
Qed.



Lemma NoDup_map_filter {A B} (f : A -> B) (p : A -> bool) (l : list A) :
  List.NoDup (map f l) -> List.NoDup (map f (List.filter p l)).
Proof.
  induction l as [|x l IH]; simpl; intros Hnd; [constructor|].
  apply NoDup_cons_iff in Hnd as [Hx Hnd].
  destruct (p x); simpl; [|now apply IH].
  constructor; [|now apply IH].
  intros (y & Hy & [Hin _]%filter_In)%in_map_iff. apply Hx. rewrite <- Hy. now apply in_map.
Qed.


Lemma fileTreeChildren_rooted (top : ticket) (repos : list RepoListEntry)
    (files : list FileMatch) :
  repo top <> EmptyString ->
  fileTreeChildren top repos files =
  GoSort.Slice treeLess (treeLoop (repo top) (path top) files).2.
Proof.
  intros Htop. unfold fileTreeChildren.
  destruct (String.eqb_spec (repo top) EmptyString); [contradiction | reflexivity].
Qed.

Lemma TrimPrefix_prefix (s p : string) :
  GoStrings.HasPrefix s p = true -> s = p +:+ GoStrings.TrimPrefix s p.
Proof.
  intros H. unfold GoStrings.TrimPrefix. rewrite H. revert s H.
  induction p as [|b p IH]; intros s H; [reflexivity|].
  destruct s as [|a s]; [discriminate|]. simpl in H.
  apply andb_prop in H as [Hab Hs]. apply Ascii.eqb_eq in Hab. subst b.
  change (String a s = String a (p +:+ GoStrings.drop (String.length p) s)).
  f_equal. now apply IH.
Qed.

Lemma append_assoc (a b c : string) : (a +:+ b) +:+ c = a +:+ (b +:+ c).
Proof.
  induction a as [|x a IH]; [reflexivity|].
  change (String x ((a +:+ b) +:+ c) = String x (a +:+ (b +:+ c))). now rewrite IH.
Qed.

(** The first segment of a file's path below the root, and its kind. *)
Lemma treeNode_segment (topPath : string) (f : FileMatch) :
  exists rest,
    GoStrings.TrimPrefix (FileName f) (treePrefix topPath)
      = Display (treeNode topPath f) +:+ rest /\
    GoStrings.lacks slash (Display (treeNode topPath f)) = true /\
    IsFile (treeNode topPath f)
      = GoStrings.lacks slash (GoStrings.TrimPrefix (FileName f) (treePrefix topPath)) /\
    (IsFile (treeNode topPath f) = true -> rest = EmptyString) /\
    (IsFile (treeNode topPath f) = false -> exists r, rest = String slash r).
Proof.
  unfold treeNode, currentPart, relParts. simpl.
  destruct (Split_first (GoStrings.TrimPrefix (FileName f) (treePrefix topPath)) slash)
    as (rest & Hrel & Hseg & Hlen & Hfile & Hdir).
  exists rest. rewrite Hlen. auto.
Qed.

(** ** Paths relative to the root *)










(** C6. The two handlers that ask the backend for one repository keep a
    returned file only when its repository is the requested one: the
    children of a rooted file tree and the answer of the source fetch are
    those computed from the files with exactly that repository, every child
    and every served body comes from such a file, and a file of a repository
    whose name only contains the requested name is passed over. *)
Theorem exact_repository_filter (top : ticket) (ticketText : string)
    (repos : list RepoListEntry) (files : list FileMatch) :
  repo top <> EmptyString ->
  (fileTreeChildren top repos files =
     fileTreeChildren top repos
       (List.filter (fun f => String.eqb (Repository f) (repo top)) files) /\
   forall t, In t (fileTreeChildren top repos files) ->
     exists f, In f files /\ Repository f = repo top /\ t = treeNode (path top) f) /\
  (serveSource ticketText files =
     serveSource ticketText
       (List.filter (fun f => String.eqb (Repository f) (repo (parseTicket ticketText)))
                    files) /\
   forall body, serveSource ticketText files = Served body ->
     exists f, In f files /\ Repository f = repo (parseTicket ticketText) /\
               Content f = body) /\
  (let other := mkFileMatch "a.txt" "myrepo2" [] "text of the other" EmptyString in
   let wanted := mkFileMatch "a.txt" "repo" [] "text" EmptyString in
   fileTreeChildren (mkTicket "repo" EmptyString) repos [other] = [] /\
   serveSource "repo:a.txt" [other; wanted] = Served "text" /\
   serveSource "repo:a.txt" [other]
   = Failed "Requested file not in response. Query: r:repo f:^a.txt$").
Proof.
  intros Htop. split; [|split].
  - split.
    + rewrite !fileTreeChildren_rooted by exact Htop. unfold treeLoop.
      now rewrite treeLoop_filter.
    + intros t Ht. rewrite fileTreeChildren_rooted in Ht by exact Htop.
      apply insertionSort_In in Ht.
      destruct (tree_from _ _ _ _ (treeLoop_inv (repo top) (path top) files) t Ht)
        as (i & f & Hi & Hrepo & -> & _).
      exists f. split; [apply In_lookup; eauto | auto].
  - split.
    + unfold serveSource. destruct (complete (parseTicket ticketText)); simpl; [|reflexivity].
      now rewrite <- sourceLoop_filter.
    + unfold serveSource. intros body.
      destruct (complete (parseTicket ticketText)); simpl; [|discriminate].
      destruct (sourceLoop _ files) as [b|] eqn:Hloop; [|discriminate].
      intros [= <-]. now apply sourceLoop_Some.
  - repeat split.
Qed.

Lemma exact_repository_filter_witness :
  repo (mkTicket "repo" EmptyString) <> EmptyString /\
  (forall t,
     In t (fileTreeChildren (mkTicket "repo" EmptyString) []
             [mkFileMatch "a.txt" "myrepo2" [] EmptyString EmptyString;
              mkFileMatch "b/c.txt" "repo" [] EmptyString EmptyString]) ->
     exists f,
       In f [mkFileMatch "a.txt" "myrepo2" [] EmptyString EmptyString;
             mkFileMatch "b/c.txt" "repo" [] EmptyString EmptyString] /\
       Repository f = "repo" /\ t = treeNode EmptyString f).
Proof.
  split; [discriminate|].
  exact (proj2 (proj1 (exact_repository_filter (mkTicket "repo" EmptyString) "repo:b/c.txt" []
                  [mkFileMatch "a.txt" "myrepo2" [] EmptyString EmptyString;
                   mkFileMatch "b/c.txt" "repo" [] EmptyString EmptyString]
                  ltac:(discriminate)))).
Defined.

Lemma declSites_from_selection_witness :
  let compile := fun _ : string => Some tt in
  let matches := fun (_ : unit) (line : string) => GoStrings.HasPrefix line "foo" in
  let site := mkFileSites (mkDisplayed "r:a.hs" "r:a.hs")
                [mkSnippet "foo :: Int" (mkRange (mkPoint 0 0) (mkPoint 0 10))
                           (mkRange (mkPoint 0 0) (mkPoint 0 3));
                 mkSnippet "bar = foo" (mkRange (mkPoint 1 0) (mkPoint 1 9))
                           (mkRange (mkPoint 1 6) (mkPoint 1 9))]
                "c1" "h1" in
  compile (declPattern "foo") = Some tt /\
  exists decls, declSites unit compile matches "foo" [site] = Some decls.
Proof.
  split; [reflexivity|].
  destruct (declSites_from_selection unit (fun _ : string => Some tt)
              (fun (_ : unit) (line : string) => GoStrings.HasPrefix line "foo")
              "foo" tt
              [mkFileSites (mkDisplayed "r:a.hs" "r:a.hs")
                [mkSnippet "foo :: Int" (mkRange (mkPoint 0 0) (mkPoint 0 10))
                           (mkRange (mkPoint 0 0) (mkPoint 0 3));
                 mkSnippet "bar = foo" (mkRange (mkPoint 1 0) (mkPoint 1 9))
                           (mkRange (mkPoint 1 6) (mkPoint 1 9))]
                "c1" "h1"]
              eq_refl) as [_ [decls [Hd _]]].
  exists decls. exact Hd.
Defined.

Lemma appendSearches_in_bounds_witness :
  let files := [mkFileMatch "a.hs" "r"
                  [mkLineMatch "foo :: Int" 0 10 1 [mkFragment 0 3]] EmptyString "c1"] in
  (forall f l, In f files -> In l (LineMatches f) -> LineFragments l <> []) /\
  exists sites, appendSearches (fun bytes => bytes) files [] = Some ([] ++ sites).
Proof.
  assert (H : forall f l,
            In f [mkFileMatch "a.hs" "r"
                    [mkLineMatch "foo :: Int" 0 10 1 [mkFragment 0 3]] EmptyString "c1"] ->
            In l (LineMatches f) -> LineFragments l <> []).
  { intros f l [<-|[]] [<-|[]]. discriminate. }
  split; [exact H|].
  destruct (proj1 (appendSearches_in_bounds (fun bytes => bytes)
              [mkFileMatch "a.hs" "r"
                 [mkLineMatch "foo :: Int" 0 10 1 [mkFragment 0 3]] EmptyString "c1"] []) H)
    as [sites [Hs _]].
  exists sites. exact Hs.
Defined.

(** ** Two worked inputs *)

(** A line of 300 bytes is clipped to 30 + 28 + 30 bytes. *)
Example clipLine_300 :
  let line := string_of_list_ascii (replicate 300 "x"%char) in
  clipLine line =
    string_of_list_ascii (replicate 30 "x"%char) +:+ clipMarker +:+
    string_of_list_ascii (replicate 30 "x"%char) /\
  String.length (clipLine line) = 88%nat.
Proof. split; vm_compute; reflexivity. Qed.

(** The counters of a whole reply.  The backend reports a match on a file
    name as a line match holding the name, so two copies of one file under
    two names have the same checksum and different matched lines; with a
    digest that tells the two names apart, the reply counts one duplicate
    file and no duplicate match. *)
Lemma serveSearchXref_counts_diverge (sha1Sum : string -> string) (Regexp : Type)
    (regexpCompile : string -> option Regexp) (MatchString : Regexp -> string -> bool)
    (selection : string) (re : Regexp) :
  sha1Sum "vendor/foo_a.txt" <> sha1Sum "vendor/foo_b.txt" ->
  regexpCompile (declPattern selection) = Some re ->
  let file name :=
    mkFileMatch name "repo" [mkLineMatch name 0 16 1 [mkFragment 7 3]]
                EmptyString "c0ffee" in
  exists reply,
    serveSearchXref sha1Sum Regexp regexpCompile MatchString selection
      "nosuchrepo:nosuchfile" [file "vendor/foo_a.txt"; file "vendor/foo_b.txt"]
    = Some reply /\
    rcFiles (RefCounts reply) = 2 /\
    rcDupFiles (RefCounts reply) = 1 /\
    rcDupMatches (RefCounts reply) = 0.
Proof.
  intros Hdigest Hre file. unfold serveSearchXref.
  set (sites := [mkFileSites (mkDisplayed "repo:vendor/foo_a.txt" "repo:vendor/foo_a.txt")
                   [mkSnippet "vendor/foo_a.txt" (mkRange (mkPoint 0 0) (mkPoint 0 16))
                              (mkRange (mkPoint 0 7) (mkPoint 0 10))]
                   "c0ffee" (sha1Sum "vendor/foo_a.txt");
                 mkFileSites (mkDisplayed "repo:vendor/foo_b.txt" "repo:vendor/foo_b.txt")
                   [mkSnippet "vendor/foo_b.txt" (mkRange (mkPoint 0 0) (mkPoint 0 16))
                              (mkRange (mkPoint 0 7) (mkPoint 0 10))]
                   "c0ffee" (sha1Sum "vendor/foo_b.txt")]).
  assert (Happ : appendSearches sha1Sum
                   [file "vendor/foo_a.txt"; file "vendor/foo_b.txt"] [] = Some sites)
    by reflexivity.
  assert (Hsort : relevanceSort (parseTicket "nosuchrepo:nosuchfile") sites = sites)
    by reflexivity.
  rewrite Happ. simpl. rewrite Hsort. unfold declSites. rewrite Hre. simpl.
  eexists. split; [reflexivity|]. simpl.
  pose proof (groupLoop_inv sites) as Hinv. unfold groupSites. simpl.
  rewrite (inv_fileCnt _ _ Hinv), (inv_fileDup _ _ Hinv), (inv_matchDup _ _ Hinv).
  unfold sites. cbn [map fileChecksum snippetsHash repeats app has existsb length].
  destruct (String.eqb_spec (sha1Sum "vendor/foo_b.txt") (sha1Sum "vendor/foo_a.txt"))
    as [Heq|_]; [now destruct Hdigest|].
  repeat split.
Qed.

(** * Further properties of the handlers *)

(** ** Escaping a selection *)

Section EscapeFacts.
Import GoUtf8.

Lemma byteOf_byteVal (a : ascii) : byteOf (byteVal a) = a.
Proof. unfold byteOf, byteVal. rewrite N2Z.id. apply ascii_N_embedding. Qed.

Lemma byteVal_range (a : ascii) : 0 <= byteVal a < 256.
Proof.
  unfold byteVal. pose proof (N_ascii_bounded a) as H. lia.
Qed.

Lemma fold_append_cons (x : string) (l : list string) :
  fold_right String.append EmptyString (x :: l)
  = x +:+ fold_right String.append EmptyString l.
Proof. reflexivity. Qed.

(** On a byte below 128 the loop sees the byte itself: it is written back,
    after a backslash when it is one of [toEscape]. *)
Lemma escape_ascii_cons (a : ascii) (s : string) :
  byteVal a < 128 ->
  escapeLiteralQuery (String a s) =
    if GoStrings.lacks a toEscape then String a (escapeLiteralQuery s)
    else String backslash (String a (escapeLiteralQuery s)).
Proof.
  intros Ha. pose proof (byteVal_range a) as Hr.
  unfold escapeLiteralQuery, runes. cbn [runesFrom decodeRune].
  destruct (Z.ltb_spec (byteVal a) 128) as [_|]; [|lia].
  cbn [Nat.sub map]. rewrite fold_append_cons.
  unfold escapeRune, encodeRune, between.
  destruct (Z.leb_spec 0 (byteVal a)); [|lia].
  destruct (Z.leb_spec (byteVal a) 127); [|lia].
  cbn [andb]. rewrite byteOf_byteVal. cbn [ContainsAny]. rewrite orb_false_r.
  destruct (GoStrings.lacks a toEscape); reflexivity.
Qed.

Lemma lacks_not_backslash (a : ascii) :
  GoStrings.lacks a toEscape = true -> Ascii.eqb a backslash = false.
Proof.
  intros H. destruct (Ascii.eqb_spec a backslash) as [->|]; [|reflexivity].
  vm_compute in H. discriminate.
Qed.

End EscapeFacts.

Lemma escapeLiteralQuery_unescape_ascii (s : string) :
  GoUtf8.isASCII s = true -> unescape (escapeLiteralQuery s) = s.
Proof.
  induction s as [|a s IH]; [reflexivity|].
  cbn [GoUtf8.isASCII]. intros [Ha Hs]%andb_prop. apply Z.ltb_lt in Ha.
  rewrite (escape_ascii_cons a s Ha).
  destruct (GoStrings.lacks a toEscape) eqn:Hl.
  - cbn [unescape]. rewrite (lacks_not_backslash a Hl). now rewrite IH.
  - cbn [unescape]. rewrite Ascii.eqb_refl. now rewrite IH.
Qed.

(** X1. For a selection made of ASCII bytes, the escaped text reads back as
    the selection: nothing is lost and every backslash put in stands before
    the byte it protects.  The same holds for two selections one after the
    other: escaping goes byte by byte. *)
Theorem escapeLiteralQuery_unescape (s t : string) :
  GoUtf8.isASCII s = true -> GoUtf8.isASCII t = true ->
  unescape (escapeLiteralQuery s) = s /\
  escapeLiteralQuery (s +:+ t) = escapeLiteralQuery s +:+ escapeLiteralQuery t.
Proof.
  intros Hs Ht. split; [now apply escapeLiteralQuery_unescape_ascii|].
  clear Ht. induction s as [|a s IH]; [reflexivity|].
  cbn [GoUtf8.isASCII] in Hs. apply andb_prop in Hs as [Ha Hs]. apply Z.ltb_lt in Ha.
  change (String a s +:+ t) with (String a (s +:+ t)).
  rewrite !(escape_ascii_cons a _ Ha), (IH Hs).
  destruct (GoStrings.lacks a toEscape); reflexivity.
Qed.

Lemma escapeLiteralQuery_unescape_witness :
  GoUtf8.isASCII "a.b(c) d\e" = true /\
  unescape (escapeLiteralQuery "a.b(c) d\e") = "a.b(c) d\e".
Proof.
  split; [reflexivity|].
  exact (proj1 (escapeLiteralQuery_unescape "a.b(c) d\e" EmptyString eq_refl eq_refl)).
Defined.

(** X2. For a selection made of ASCII bytes, escaping adds one byte for each
    of its bytes that is in [toEscape] and nothing else: a selection with no
    such byte is passed as it is. *)
Theorem escapeLiteralQuery_length (s : string) :
  GoUtf8.isASCII s = true ->
  String.length (escapeLiteralQuery s)
    = (String.length s + countAny s toEscape)%nat /\
  (countAny s toEscape = O -> escapeLiteralQuery s = s).
Proof.
  induction s as [|a s IH]; [split; reflexivity|].
  cbn [GoUtf8.isASCII]. intros [Ha Hs]%andb_prop. apply Z.ltb_lt in Ha.
  destruct (IH Hs) as [IHlen IHsame].
  rewrite (escape_ascii_cons a s Ha). cbn [countAny].
  destruct (GoStrings.lacks a toEscape); cbn [String.length]; split.
  - rewrite IHlen. lia.
  - intros H0. now rewrite IHsame.
  - rewrite IHlen. lia.
  - intros H0. discriminate.
Qed.

Lemma escapeLiteralQuery_length_witness :
  GoUtf8.isASCII "foo.Bar" = true /\
  String.length (escapeLiteralQuery "foo.Bar") = (7 + 1)%nat.
Proof.
  split; [reflexivity|].
  exact (proj1 (escapeLiteralQuery_length "foo.Bar" eq_refl)).
Defined.




(** X4. The mode of a request is the first value of [mode] when that is
    [Lax], [Boundary] or [Raw], and [Lax] when the parameter is absent or
    has any other value; the casing is the first value of [casing] when
    that is [yes], [no] or [auto], and [auto] otherwise.  In [Raw] mode the
    selection is the query as it is, unescaped; in the two other modes the
    query is [case:] with the casing, a space and the escaped selection,
    between two [\b] in [Boundary] mode.  The escaped selection reads back
    as the selection when the selection is made of ASCII bytes. *)
Theorem xrefQuery_modes (modes casings : option string) (selection : string) :
  let mode := pickMode modes in
  let casing := pickCasing casings in
  In mode ["Lax"; "Boundary"; "Raw"] /\
  In casing ["yes"; "no"; "auto"] /\
  (forall m, modes = Some m -> In m ["Lax"; "Boundary"; "Raw"] -> mode = m) /\
  (forall c, casings = Some c -> In c ["yes"; "no"; "auto"] -> casing = c) /\
  (modes = None -> mode = "Lax") /\
  (forall m, modes = Some m -> ~ In m ["Lax"; "Boundary"; "Raw"] -> mode = "Lax") /\
  (casings = None -> casing = "auto") /\
  (forall c, casings = Some c -> ~ In c ["yes"; "no"; "auto"] -> casing = "auto") /\
  (mode = "Raw" -> xrefQuery mode casing selection = selection) /\
  (mode = "Lax" ->
     xrefQuery mode casing selection
       = "case:" +:+ casing +:+ " " +:+ escapeLiteralQuery selection) /\
  (mode = "Boundary" ->
     xrefQuery mode casing selection
       = "case:" +:+ casing +:+ " " +:+ "\b" +:+ escapeLiteralQuery selection +:+ "\b") /\
  (GoUtf8.isASCII selection = true ->
     unescape (escapeLiteralQuery selection) = selection).
Proof.
  intros mode casing.
  assert (Hmode : In mode ["Lax"; "Boundary"; "Raw"]).
  { unfold mode, pickMode. destruct modes as [m|]; [|simpl; auto].
    destruct (String.eqb_spec m "Lax") as [->|]; [simpl; auto|].
    destruct (String.eqb_spec m "Boundary") as [->|]; [simpl; auto|].
    destruct (String.eqb_spec m "Raw") as [->|]; simpl; auto. }
  assert (Hcasing : In casing ["yes"; "no"; "auto"]).
  { unfold casing, pickCasing. destruct casings as [c|]; [|simpl; auto].
    destruct (String.eqb_spec c "yes") as [->|]; [simpl; auto|].
    destruct (String.eqb_spec c "no") as [->|]; [simpl; auto|].
    destruct (String.eqb_spec c "auto") as [->|]; simpl; auto. }
  split; [exact Hmode|]. split; [exact Hcasing|].
  repeat match goal with |- _ /\ _ => split end.
  - intros m -> Hm. unfold mode, pickMode.
    destruct Hm as [<-|[<-|[<-|[]]]]; reflexivity.
  - intros c -> Hc. unfold casing, pickCasing.
    destruct Hc as [<-|[<-|[<-|[]]]]; reflexivity.
  - intros ->. reflexivity.
  - intros m -> Hm. unfold mode, pickMode.
    destruct (String.eqb_spec m "Lax") as [->|]; [reflexivity|].
    destruct (String.eqb_spec m "Boundary") as [->|]; [destruct Hm; simpl; auto|].
    destruct (String.eqb_spec m "Raw") as [->|]; [destruct Hm; simpl; auto|].
    reflexivity.
  - intros ->. reflexivity.
  - intros c -> Hc. unfold casing, pickCasing.
    destruct (String.eqb_spec c "yes") as [->|]; [destruct Hc; simpl; auto|].
    destruct (String.eqb_spec c "no") as [->|]; [destruct Hc; simpl; auto|].
    destruct (String.eqb_spec c "auto") as [->|]; [reflexivity|].
    reflexivity.
  - intros ->. reflexivity.
  - intros ->. reflexivity.
  - intros ->. reflexivity.
  - apply escapeLiteralQuery_unescape_ascii.
Qed.

Lemma xrefQuery_modes_witness :
  ~ In "Fuzzy" ["Lax"; "Boundary"; "Raw"] /\
  GoUtf8.isASCII "foo.bar" = true /\
  pickMode (Some "Fuzzy") = "Lax" /\
  pickCasing None = "auto" /\
  xrefQuery (pickMode (Some "Fuzzy")) (pickCasing None) "foo.bar" = "case:auto foo\.bar" /\
  unescape (escapeLiteralQuery "foo.bar") = "foo.bar".
Proof.
  assert (Hnot : ~ In "Fuzzy" ["Lax"; "Boundary"; "Raw"]).
  { intros [H|[H|[H|[]]]]; discriminate. }
  split; [exact Hnot|]. split; [reflexivity|].
  destruct (xrefQuery_modes (Some "Fuzzy") None "foo.bar")
    as (_ & _ & _ & _ & _ & Hother & Hauto & _ & _ & Hlax & _ & Hback).
  split; [exact (Hother "Fuzzy" eq_refl Hnot)|].
  split; [exact (Hauto eq_refl)|].
  split; [exact (Hlax (Hother "Fuzzy" eq_refl Hnot)) | exact (Hback eq_refl)].
Defined.

(** ** Tickets *)

Lemma lacks_app_sep (c : ascii) (r p : string) :
  GoStrings.lacks c (r +:+ String c p) = false.
Proof.
  induction r as [|x r IH].
  - change (GoStrings.lacks c (String c p) = false). simpl.
    now rewrite Ascii.eqb_refl.
  - change (GoStrings.lacks c (String x (r +:+ String c p)) = false). simpl.
    rewrite IH. apply andb_false_r.
Qed.

Lemma parseTicket_cases (t : string) :
  (GoStrings.lacks colon t = true /\ parseTicket t = mkTicket t EmptyString) \/
  (exists r p, GoStrings.lacks colon r = true /\ t = r +:+ String colon p /\
               parseTicket t = mkTicket r p).
Proof.
  destruct (GoStrings.lacks colon t) eqn:Hl.
  - left. split; [reflexivity|]. unfold parseTicket, GoStrings.SplitN. simpl.
    now rewrite (cut_lacks colon t Hl).
  - right. destruct (cut_found colon t Hl) as (r & p & Hcut & Ht & Hr & _).
    exists r, p. split; [exact Hr|]. split; [exact Ht|].
    unfold parseTicket, GoStrings.SplitN. simpl. now rewrite Hcut.
Qed.

(** X5. [parseTicket] cuts at the first colon only: the repository it
    returns never holds a colon, a text without colon is a repository with
    an empty path, and a text with a colon is given back by putting the
    repository, a colon and the path together again, so a path may hold
    colons. *)
Theorem parseTicket_first_colon (t : string) :
  GoStrings.lacks colon (repo (parseTicket t)) = true /\
  (GoStrings.lacks colon t = true -> parseTicket t = mkTicket t EmptyString) /\
  (GoStrings.lacks colon t = false -> formatTicket (parseTicket t) = t) /\
  (forall r p, GoStrings.lacks colon r = true ->
     parseTicket (r +:+ String colon p) = mkTicket r p).
Proof.
  destruct (parseTicket_cases t) as [[Hl Hp]|(r & p & Hr & Ht & Hp)].
  - rewrite Hp, Hl. simpl. repeat split; try discriminate; try reflexivity.
    + exact Hl.
    + intros r p Hr. unfold parseTicket, GoStrings.SplitN. simpl.
      now rewrite (cut_app_lacks colon r p Hr).
  - rewrite Hp. simpl. split; [exact Hr|]. split; [|split].
    + intros Hl. rewrite Ht in Hl.
      rewrite lacks_app_sep in Hl. discriminate.
    + intros _. unfold formatTicket. simpl. now rewrite Ht.
    + intros r' p' Hr'. unfold parseTicket, GoStrings.SplitN. simpl.
      now rewrite (cut_app_lacks colon r' p' Hr').
Qed.

(** ** Source fetch *)

Lemma sourceLoop_first (repo : string) (files : list FileMatch) (body : string) :
  sourceLoop repo files = Some body <->
  exists i f, files !! i = Some f /\ Repository f = repo /\ Content f = body /\
    forall j g, (j < i)%nat -> files !! j = Some g -> Repository g <> repo.
Proof.
  induction files as [|f files IH]; simpl.
  - split; [discriminate|]. intros (i & g & Hi & _). discriminate.
  - destruct (String.eqb_spec (Repository f) repo) as [Hrepo|Hrepo]; simpl.
    + split.
      * intros [= <-]. exists 0%nat, f. repeat split; auto. intros j g Hj. lia.
      * intros (i & g & Hi & Hg & Hbody & Hfirst). destruct i as [|i].
        -- simpl in Hi. injection Hi as <-. now rewrite Hbody.
        -- destruct (Hfirst 0%nat f); [lia | reflexivity | exact Hrepo].
    + rewrite IH. split.
      * intros (i & g & Hi & Hg & Hbody & Hfirst). exists (S i), g.
        repeat split; auto. intros [|j] g' Hj Hg'.
        -- simpl in Hg'. injection Hg' as <-. exact Hrepo.
        -- apply (Hfirst j g'); [lia | exact Hg'].
      * intros (i & g & Hi & Hg & Hbody & Hfirst). destruct i as [|i].
        -- simpl in Hi. injection Hi as <-. contradiction.
        -- exists i, g. repeat split; auto. intros j g' Hj Hg'.
           apply (Hfirst (S j) g'); [lia | exact Hg'].
Qed.

Lemma sourceLoop_names (repo : string) (rename : FileMatch -> string)
    (files : list FileMatch) :
  sourceLoop repo
    (map (fun f => mkFileMatch (rename f) (Repository f) (LineMatches f)
                               (Content f) (Checksum f)) files)
  = sourceLoop repo files.
Proof.
  induction files as [|f files IH]; simpl; [reflexivity|].
  destruct (String.eqb (Repository f) repo); simpl; [reflexivity | exact IH].
Qed.

(** Once the query has been parsed and the backend has answered with
    [files], the content of the first file of the requested repository is
    served, and the not-in-response error is given for a complete ticket
    when there is no such file. *)
Lemma serveSource_answered (ticketText : string) (files : list FileMatch) :
  (forall body,
     serveSource ticketText files = Served body <->
     complete (parseTicket ticketText) = true /\
     exists i f, files !! i = Some f /\
       Repository f = repo (parseTicket ticketText) /\ Content f = body /\
       forall j g, (j < i)%nat -> files !! j = Some g ->
                   Repository g <> repo (parseTicket ticketText)) /\
  (serveSource ticketText files
     = Failed ("Requested file not in response. Query: " +:+
               sourceQuery (parseTicket ticketText)) <->
   complete (parseTicket ticketText) = true /\
   forall f, In f files -> Repository f <> repo (parseTicket ticketText)) /\
  (forall rename : FileMatch -> string,
     serveSource ticketText
       (map (fun f => mkFileMatch (rename f) (Repository f) (LineMatches f)
                                  (Content f) (Checksum f)) files)
     = serveSource ticketText files).
Proof.
  split; [|split].
  - intros body. unfold serveSource.
    destruct (complete (parseTicket ticketText)); simpl.
    + rewrite <- sourceLoop_first.
      destruct (sourceLoop _ files) as [b|]; split.
      * intros [= ->]. auto.
      * intros [_ [= ->]]. reflexivity.
      * discriminate.
      * intros [_ H]. discriminate.
    + split; [discriminate | intros [H _]; discriminate].
  - unfold serveSource. destruct (complete (parseTicket ticketText)); simpl.
    + destruct (sourceLoop _ files) as [b|] eqn:Hloop; split.
      * discriminate.
      * intros [_ Hnone]. apply sourceLoop_Some in Hloop as (f & Hf & Hrepo & _).
        now destruct (Hnone f Hf).
      * intros _. split; [reflexivity|]. intros f Hf Hrepo.
        assert (Hsome : exists b, sourceLoop (repo (parseTicket ticketText)) files = Some b).
        { clear Hloop. induction files as [|g files IH]; [destruct Hf|]. simpl.
          destruct (String.eqb_spec (Repository g) (repo (parseTicket ticketText)));
            simpl; [eauto|].
          destruct Hf as [->|Hf]; [contradiction | now apply IH]. }
        destruct Hsome as [b Hb]. congruence.
      * reflexivity.
    + split; [discriminate | intros [H _]; discriminate].
  - intros rename. unfold serveSource. now rewrite sourceLoop_names.
Qed.

(** X6. [serveSourceErr] checks the ticket, then has the query
    [r:repo f:^path$] parsed, then searches with whole files asked for.  An
    incomplete ticket gives the format error; for a complete one, an error
    of the parser or of the backend is returned as it is, and no file is
    served; once the backend has answered, the content of the first
    returned file whose repository is the requested one is served, and the
    not-in-response error with the query is returned exactly when no
    returned file has that repository.  The name of a returned file is
    never looked at: giving the returned files other names changes
    nothing. *)
Theorem serveSourceErr_first_of_repository (Q : Type) (queryParse : string -> reply Q)
    (SearcherSearch : Q -> bool -> reply (list FileMatch)) (ticketText : string) :
  let tick := parseTicket ticketText in
  let rq := "r:" +:+ repo tick +:+ " f:^" +:+ path tick +:+ "$" in
  let answer := serveSourceErr Q queryParse SearcherSearch ticketText in
  (complete tick = false -> answer = Failed "Expected ticket in repo:path format") /\
  (complete tick = true ->
     (forall err, queryParse rq = Failed err -> answer = Failed err) /\
     (forall q err, queryParse rq = Served q -> SearcherSearch q true = Failed err ->
        answer = Failed err) /\
     (forall q files, queryParse rq = Served q -> SearcherSearch q true = Served files ->
        (forall body,
           answer = Served body <->
           exists i f, files !! i = Some f /\
             Repository f = repo tick /\ Content f = body /\
             forall j g, (j < i)%nat -> files !! j = Some g -> Repository g <> repo tick) /\
        (answer = Failed ("Requested file not in response. Query: " +:+ rq) <->
         forall f, In f files -> Repository f <> repo tick))) /\
  (forall rename : FileMatch -> string,
     serveSourceErr Q queryParse
       (fun q whole =>
          match SearcherSearch q whole with
          | Served files =>
              Served (map (fun f => mkFileMatch (rename f) (Repository f) (LineMatches f)
                                                (Content f) (Checksum f)) files)
          | Failed err => Failed err
          end) ticketText
     = answer).
Proof.
  intros tick rq answer. unfold answer, serveSourceErr. fold tick.
  change (sourceQuery tick) with rq.
  split; [|split].
  - intros ->. reflexivity.
  - intros Hc. rewrite Hc. simpl. split; [|split].
    + intros err ->. reflexivity.
    + intros q err -> ->. reflexivity.
    + intros q files -> ->.
      destruct (serveSource_answered ticketText files) as (Hserved & Hnone & _).
      fold tick in Hserved, Hnone. change (sourceQuery tick) with rq in Hnone.
      split.
      * intros body. rewrite (Hserved body). rewrite Hc. tauto.
      * rewrite Hnone. rewrite Hc. tauto.
  - intros rename. destruct (negb (complete tick)); [reflexivity|].
    destruct (queryParse rq) as [q|err]; [|reflexivity].
    destruct (SearcherSearch q true) as [files|err]; [|reflexivity].
    now destruct (serveSource_answered ticketText files) as (_ & _ & Hnames).
Qed.

Lemma serveSourceErr_first_of_repository_witness :
  let queryParse := fun rq : string =>
    if GoStrings.lacks "("%char rq then Served rq
    else Failed "regexp: missing closing )" in
  let SearcherSearch := fun (_ : string) (_ : bool) =>
    Served [mkFileMatch "a.go" "repo" [] "package main" EmptyString] in
  complete (parseTicket "repo:a(b") = true /\
  queryParse "r:repo f:^a(b$" = Failed "regexp: missing closing )" /\
  serveSourceErr string queryParse SearcherSearch "repo:a(b"
    = Failed "regexp: missing closing )" /\
  serveSourceErr string queryParse SearcherSearch "repo:a.go" = Served "package main".
Proof.
  intros queryParse SearcherSearch.
  split; [reflexivity|]. split; [reflexivity|]. split.
  - destruct (serveSourceErr_first_of_repository string queryParse SearcherSearch "repo:a(b")
      as (_ & Hcomplete & _).
    destruct (Hcomplete eq_refl) as (Hparse & _).
    exact (Hparse "regexp: missing closing )" eq_refl).
  - destruct (serveSourceErr_first_of_repository string queryParse SearcherSearch "repo:a.go")
      as (_ & Hcomplete & _).
    destruct (Hcomplete eq_refl) as (_ & _ & Hanswered).
    destruct (Hanswered "r:repo f:^a.go$"
                [mkFileMatch "a.go" "repo" [] "package main" EmptyString] eq_refl eq_refl)
      as (Hserved & _).
    apply Hserved. exists 0%nat, (mkFileMatch "a.go" "repo" [] "package main" EmptyString).
    repeat split. intros j g Hj. lia.
Defined.

(** X7. The source fetch asks for a complete ticket: it fails with the
    format error, whatever the backend returned, exactly when the text has
    no colon, starts with its first colon or ends with it, that is unless
    the text is a non-empty repository without colon, a colon and a
    non-empty path. *)
Theorem serveSource_incomplete (ticketText : string) (files : list FileMatch) :
  (serveSource ticketText files = Failed "Expected ticket in repo:path format" <->
   complete (parseTicket ticketText) = false) /\
  (complete (parseTicket ticketText) = true <->
   exists r p, r <> EmptyString /\ p <> EmptyString /\
     GoStrings.lacks colon r = true /\ ticketText = r +:+ String colon p).
Proof.
  split.
  - unfold serveSource. destruct (complete (parseTicket ticketText)); simpl.
    + split; [|discriminate]. destruct (sourceLoop _ files); discriminate.
    + split; reflexivity.
  - unfold complete. split.
    + intros [Hr Hp]%andb_prop. apply negb_true_iff, String.eqb_neq in Hr, Hp.
      destruct (parseTicket_cases ticketText) as [[Hl Hparse]|(r & p & Hlr & Ht & Hparse)];
        rewrite Hparse in Hr, Hp; simpl in Hr, Hp.
      * now destruct Hp.
      * exists r, p. auto.
    + intros (r & p & Hr & Hp & Hl & ->).
      unfold parseTicket, GoStrings.SplitN. simpl.
      rewrite (cut_app_lacks colon r p Hl). simpl.
      apply andb_true_iff. split; apply negb_true_iff, String.eqb_neq; assumption.
Qed.

(** ** The file tree *)






(** X9. Below a root repository whose name holds no colon, the ticket of a
    child parses back to that repository and to the path of the root with
    the child's name added, so it can be sent as the next [top].  When the
    file the child comes from is below the root, its name is that path for
    a file child, and that path followed by ["/"] and more for a directory
    child; the ticket of a file child is the ticket of the file. *)
Theorem fileTree_child_ticket (top : ticket) (repos : list RepoListEntry)
    (files : list FileMatch) (t : FileTree) :
  repo top <> EmptyString ->
  GoStrings.lacks colon (repo top) = true ->
  In t (fileTreeChildren top repos files) ->
  parseTicket (KytheUri t)
    = mkTicket (repo top) (treePrefix (path top) +:+ Display t) /\
  exists f, In f files /\ Repository f = repo top /\
    (GoStrings.HasPrefix (FileName f) (treePrefix (path top)) = true ->
     exists rest,
       FileName f = path (parseTicket (KytheUri t)) +:+ rest /\
       (IsFile t = true ->
          rest = EmptyString /\
          KytheUri t = formatTicket (mkTicket (Repository f) (FileName f))) /\
       (IsFile t = false -> exists r, rest = String slash r)).
Proof.
  intros Htop Hcolon Ht. rewrite fileTreeChildren_rooted in Ht by exact Htop.
  apply insertionSort_In in Ht.
  destruct (tree_from _ _ _ _ (treeLoop_inv (repo top) (path top) files) t Ht)
    as (i & f & Hi & Hrepo & -> & _).
  assert (Hparse : parseTicket (KytheUri (treeNode (path top) f))
                   = mkTicket (repo top)
                       (treePrefix (path top) +:+ Display (treeNode (path top) f))).
  { simpl. rewrite Hrepo. now apply parseTicket_format_gen. }
  split; [exact Hparse|].
  exists f. split; [apply In_lookup; eauto|]. split; [exact Hrepo|].
  intros Hpre. rewrite Hparse. simpl path.
  destruct (treeNode_segment (path top) f) as (rest & Hrel & _ & _ & Hfile & Hdir).
  exists rest. split; [|split].
  - rewrite (TrimPrefix_prefix _ _ Hpre) at 1. now rewrite Hrel, append_assoc.
  - intros Hkind. split; [now apply Hfile|].
    unfold formatTicket. simpl. do 2 f_equal.
    rewrite (TrimPrefix_prefix _ _ Hpre) at 1. f_equal.
    change (currentPart (path top) f) with (Display (treeNode (path top) f)).
    rewrite Hrel, (Hfile Hkind). now rewrite append_empty_r.
  - exact Hdir.
Qed.

Lemma fileTree_child_ticket_witness :
  let files := [mkFileMatch "dir/sub/a.txt" "repo" [] EmptyString EmptyString] in
  let top := mkTicket "repo" "dir" in
  let t := mkFileTree "repo:dir/sub" "sub" false false None in
  repo top <> EmptyString /\ GoStrings.lacks colon (repo top) = true /\
  In t (fileTreeChildren top [] files) /\
  parseTicket (KytheUri t) = mkTicket "repo" "dir/sub".
Proof.
  split; [discriminate|]. split; [reflexivity|]. split; [now left|].
  exact (proj1 (fileTree_child_ticket (mkTicket "repo" "dir") []
                  [mkFileMatch "dir/sub/a.txt" "repo" [] EmptyString EmptyString]
                  (mkFileTree "repo:dir/sub" "sub" false false None)
                  ltac:(discriminate) eq_refl (or_introl eq_refl))).
Defined.

(** ** Sites and snippets *)

Lemma siteOf_fields (sha1Sum : string -> string) (f : FileMatch) (fs : fileSites) :
  siteOf sha1Sum f = Some fs ->
  containingFile fs = mkDisplayed (Repository f +:+ String colon (FileName f))
                                  (Repository f +:+ String colon (FileName f)) /\
  mapM snippetOf (LineMatches f) = Some (snippets fs).
Proof.
  unfold siteOf. destruct (mapM snippetOf (LineMatches f)) as [snips|]; [|discriminate].
  simpl. intros [= <-]. split; reflexivity.
Qed.

(** X10. A site is filed under the ticket [repository:file] of its file.
    When the repository name holds no colon the relevance sort reads back
    exactly the backend's repository and file name, so the site is in the
    first class for the query ticket of its own file, in the second for
    another path of its repository and in the last for another
    repository. *)
Theorem site_relevance_from_backend (sha1Sum : string -> string) (f : FileMatch)
    (fs : fileSites) (q : ticket) :
  siteOf sha1Sum f = Some fs ->
  GoStrings.lacks colon (Repository f) = true ->
  FileTicket (containingFile fs) = formatTicket (mkTicket (Repository f) (FileName f)) /\
  DisplayName (containingFile fs) = FileTicket (containingFile fs) /\
  siteRepo fs = Repository f /\ sitePath fs = FileName f /\
  (relevanceRank q fs = 0%nat <-> Repository f = repo q /\ FileName f = path q) /\
  (relevanceRank q fs = 1%nat <-> Repository f = repo q /\ FileName f <> path q) /\
  (relevanceRank q fs = 2%nat <-> Repository f <> repo q).
Proof.
  intros Hsite Hcolon. destruct (siteOf_fields sha1Sum f fs Hsite) as [Hfile _].
  assert (Hparse : parseTicket (FileTicket (containingFile fs))
                   = mkTicket (Repository f) (FileName f)).
  { rewrite Hfile. simpl. now apply parseTicket_format_gen. }
  assert (Hr : siteRepo fs = Repository f) by (unfold siteRepo; now rewrite Hparse).
  assert (Hp : sitePath fs = FileName f) by (unfold sitePath; now rewrite Hparse).
  split; [now rewrite Hfile|]. split; [now rewrite Hfile|].
  split; [exact Hr|]. split; [exact Hp|].
  unfold relevanceRank. rewrite Hr, Hp.
  destruct (String.eqb_spec (Repository f) (repo q)) as [Hrq|Hrq];
    destruct (String.eqb_spec (FileName f) (path q)) as [Hpq|Hpq];
    repeat split; intros; try discriminate; try tauto; try lia;
    match goal with H : _ /\ _ |- _ => destruct H end; try contradiction; try lia.
Qed.

Lemma site_relevance_from_backend_witness :
  let f := mkFileMatch "a.hs" "repo" [mkLineMatch "foo :: Int" 0 10 1 [mkFragment 0 3]]
                       EmptyString "c1" in
  let fs := mkFileSites (mkDisplayed "repo:a.hs" "repo:a.hs")
              [mkSnippet "foo :: Int" (mkRange (mkPoint 0 0) (mkPoint 0 10))
                                      (mkRange (mkPoint 0 0) (mkPoint 0 3))]
              "c1" "foo :: Int" in
  siteOf (fun bytes => bytes) f = Some fs /\
  GoStrings.lacks colon (Repository f) = true /\
  siteRepo fs = "repo".
Proof.
  split; [reflexivity|]. split; [reflexivity|].
  destruct (site_relevance_from_backend (fun bytes => bytes)
              (mkFileMatch "a.hs" "repo"
                 [mkLineMatch "foo :: Int" 0 10 1 [mkFragment 0 3]] EmptyString "c1")
              (mkFileSites (mkDisplayed "repo:a.hs" "repo:a.hs")
                 [mkSnippet "foo :: Int" (mkRange (mkPoint 0 0) (mkPoint 0 10))
                                         (mkRange (mkPoint 0 0) (mkPoint 0 3))]
                 "c1" "foo :: Int")
              (mkTicket "repo" "a.hs") eq_refl eq_refl) as (_ & _ & Hr & _).
  exact Hr.
Defined.

Lemma wrap64_small (z : Z) : - 2 ^ 63 <= z < 2 ^ 63 -> wrap64 z = z.
Proof.
  intros H. unfold wrap64. rewrite Z.mod_small; lia.
Qed.

(** X11. For a line match as the backend makes it (a line number from 1,
    a line from [LineStart] to [LineEnd], a first fragment inside the line,
    all within [int]), the two spans are on the line numbered from 0, the
    full span goes from column 0 to the length of the line, and the
    occurrence span lies inside the full span. *)
Theorem snippetOf_spans (l : LineMatch) (firstFrag : LineFragmentMatch)
    (rest : list LineFragmentMatch) :
  LineFragments l = firstFrag :: rest ->
  1 <= LineNumber l < 2 ^ 63 ->
  0 <= LineStart l <= LineEnd l -> LineEnd l < 2 ^ 63 ->
  0 <= LineOffset firstFrag -> 0 <= MatchLength firstFrag ->
  LineOffset firstFrag + MatchLength firstFrag <= LineEnd l - LineStart l ->
  exists s, snippetOf l = Some s /\
    PLine (From (FullSpan s)) = LineNumber l - 1 /\
    PLine (To (FullSpan s)) = LineNumber l - 1 /\
    PLine (From (OccurrenceSpan s)) = LineNumber l - 1 /\
    PLine (To (OccurrenceSpan s)) = LineNumber l - 1 /\
    0 <= LineNumber l - 1 /\
    Ch (From (FullSpan s)) = 0 /\
    Ch (To (FullSpan s)) = LineEnd l - LineStart l /\
    Ch (To (OccurrenceSpan s)) - Ch (From (OccurrenceSpan s)) = MatchLength firstFrag /\
    0 <= Ch (From (OccurrenceSpan s)) <= Ch (To (OccurrenceSpan s)) /\
    Ch (To (OccurrenceSpan s)) <= Ch (To (FullSpan s)).
Proof.
  intros Hfr Hnum Hline Hend Hoff Hlen Hin.
  unfold snippetOf. rewrite Hfr. eexists. split; [reflexivity|]. simpl.
  rewrite !wrap64_small by lia. repeat split; lia.
Qed.

Lemma snippetOf_spans_witness :
  let l := mkLineMatch "foo :: Int" 120 130 7 [mkFragment 0 3] in
  LineFragments l = [mkFragment 0 3] /\
  exists s, snippetOf l = Some s /\ PLine (From (FullSpan s)) = 6.
Proof.
  split; [reflexivity|].
  destruct (snippetOf_spans (mkLineMatch "foo :: Int" 120 130 7 [mkFragment 0 3])
              (mkFragment 0 3) [] eq_refl
              ltac:(simpl; lia) ltac:(simpl; lia) ltac:(simpl; lia)
              ltac:(simpl; lia) ltac:(simpl; lia) ltac:(simpl; lia))
    as (s & Hs & Hline & _).
  exists s. split; [exact Hs | exact Hline].
Defined.

(** X12. The text of a snippet is never longer than 250 bytes: a clipped
    line has 88 bytes, and clipping a text again leaves it as it is. *)
Theorem clipLine_bound (line : string) :
  (String.length (clipLine line) <= 250)%nat /\
  ((250 < String.length line)%nat -> String.length (clipLine line) = 88%nat) /\
  clipLine (clipLine line) = clipLine line.
Proof.
  assert (Hlong : (250 < String.length line)%nat -> String.length (clipLine line) = 88%nat).
  { intros H. rewrite (clipLine_long line H), !length_append.
    destruct (clip_parts line H) as (mid & _ & Hh & Ht). rewrite Hh, Ht. reflexivity. }
  assert (Hbound : (String.length (clipLine line) <= 250)%nat).
  { destruct (Nat.le_gt_cases (String.length line) 250) as [Hs|Hl].
    - now rewrite (clipLine_short line Hs).
    - rewrite (Hlong Hl). lia. }
  split; [exact Hbound|]. split; [exact Hlong|]. now apply clipLine_short.
Qed.

(** ** The counters of the grouping pass *)

Lemma groupStep_snips (st : groupState) (fs : fileSites) :
  stSnipCnt (groupStep st fs) = stSnipCnt st + Z.of_nat (length (snippets fs)).
Proof.
  unfold groupStep. destruct (contentGroups st !! snippetsHash fs); reflexivity.
Qed.

Lemma groupLoop_snips (l : list fileSites) (st : groupState) :
  stSnipCnt (fold_left groupStep l st) = stSnipCnt st + Z.of_nat (snippetTotal l).
Proof.
  revert st. induction l as [|fs l IH]; intros st; simpl.
  - unfold snippetTotal. simpl. lia.
  - rewrite IH, groupStep_snips. unfold snippetTotal. simpl. lia.
Qed.

Lemma emitFrom_snippets (before l : list fileSites) :
  map (fun p => length (Snippets (snd p))) (emitFrom before l)
  = map (fun fs => length (snippets fs)) l.
Proof.
  revert before. induction l as [|fs l IH]; intros before; simpl; [reflexivity|].
  now rewrite IH.
Qed.

Lemma list_sum_perm (l l' : list nat) : Permutation l l' -> list_sum l = list_sum l'.
Proof.
  induction 1 as [|x l l' _ IH|x y l|l l' l'' _ IH1 _ IH2]; simpl; lia.
Qed.

Lemma members_present (h : string) (out : list (string * UhFileSites)) :
  In h (map fst out) -> members h out <> [].
Proof.
  unfold members. induction out as [|[k s] out IH]; simpl; [tauto|].
  destruct (String.eqb_spec k h) as [->|Hne]; simpl; [discriminate|].
  intros [Hk|Hin]; [contradiction | now apply IH].
Qed.

(** X13. The grouping pass loses and invents nothing: [fileCnt] is the
    number of sites and [snipCnt] the number of their snippets, every group
    has a member, the groups together hold as many sites as came in and as
    many snippets as were counted, and no counter of duplicates exceeds the
    number of sites but one.  For no site at all every counter is 0 and
    there is no group. *)
Theorem groupSites_counts (l : list fileSites) :
  let r := groupSites l in
  fileCnt r = Z.of_nat (length l) /\
  snipCnt r = Z.of_nat (snippetTotal l) /\
  (forall G, In G (groups r) -> Files G <> []) /\
  list_sum (map (fun G => length (Files G)) (groups r)) = length l /\
  list_sum (map (fun s => length (Snippets s)) (concat (map Files (groups r))))
    = snippetTotal l /\
  0 <= fileDupCnt r /\ 0 <= matchDupCnt r /\
  (l <> [] -> fileDupCnt r <= fileCnt r - 1 /\ matchDupCnt r <= fileCnt r - 1) /\
  (l = [] -> r = mkGroupResult 0 0 0 0 []).
Proof.
  intros r. pose proof (groupLoop_inv l) as Hinv. pose proof (groups_perm l) as Hperm.
  pose proof (groups_members l) as Hg. fold r in Hperm, Hg.
  assert (Hfile : fileCnt r = Z.of_nat (length l)) by apply (inv_fileCnt _ _ Hinv).
  assert (Hfd : fileDupCnt r = Z.of_nat (repeats [] (map fileChecksum l)))
    by apply (inv_fileDup _ _ Hinv).
  assert (Hmd : matchDupCnt r = Z.of_nat (repeats [] (map snippetsHash l)))
    by apply (inv_matchDup _ _ Hinv).
  pose proof (repeats_firstSeen (map fileChecksum l)) as Hc.
  pose proof (repeats_firstSeen (map snippetsHash l)) as Hh.
  rewrite length_map in Hc, Hh.
  split; [exact Hfile|]. split; [|split; [|split; [|split; [|split; [|split; [|split]]]]]].
  - unfold r, groupSites, groupLoop. simpl. rewrite groupLoop_snips. simpl. lia.
  - intros G HG. rewrite Hg in HG. apply in_map_iff in HG as (h & <- & Hh').
    simpl. apply members_present. rewrite emitted_keys. now apply firstSeen_In.
  - rewrite <- map_map, <- length_concat, (Permutation_length Hperm), length_map.
    unfold emitted. rewrite <- (length_map fst), emitFrom_keys. apply length_map.
  - rewrite (list_sum_perm _ _ (Permutation_map _ Hperm)), map_map.
    unfold emitted, snippetTotal. now rewrite emitFrom_snippets.
  - lia.
  - lia.
  - intros Hne. rewrite Hfile, Hfd, Hmd.
    destruct l as [|fs l']; [contradiction|].
    assert (H1 : (1 <= length (firstSeen (map fileChecksum (fs :: l'))))%nat)
      by (simpl; lia).
    assert (H2 : (1 <= length (firstSeen (map snippetsHash (fs :: l'))))%nat)
      by (simpl; lia).
    lia.
  - intros ->. reflexivity.
Qed.

(** ** The declarations *)

Section DeclarationFacts.
Context {Regexp : Type} (MatchString : Regexp -> string -> bool) (re : Regexp).

Lemma declLoop_matching (sites : list fileSites) :
  declLoop Regexp MatchString re sites =
  flat_map (fun fs =>
    map (fun s => mkFileSites (containingFile fs) [s] (fileChecksum fs) (snippetsHash fs))
        (matching MatchString re fs)) sites.
Proof.
  unfold declLoop, matching. apply flat_map_ext. intros fs.
  induction (snippets fs) as [|s ss IH]; simpl; [reflexivity|].
  destruct (MatchString re (Text s)); simpl; now rewrite IH.
Qed.

Lemma declLoop_cons (fs : fileSites) (sites : list fileSites) :
  declLoop Regexp MatchString re (fs :: sites) =
  map (fun s => mkFileSites (containingFile fs) [s] (fileChecksum fs) (snippetsHash fs))
      (matching MatchString re fs)
  ++ declLoop Regexp MatchString re sites.
Proof. rewrite !declLoop_matching. reflexivity. Qed.

Lemma declLoop_length (sites : list fileSites) :
  length (declLoop Regexp MatchString re sites)
  = list_sum (map (fun fs => length (matching MatchString re fs)) sites).
Proof.
  induction sites as [|fs sites IH]; [reflexivity|].
  rewrite declLoop_cons, length_app, length_map, IH. reflexivity.
Qed.

Lemma declLoop_snippetTotal (sites : list fileSites) :
  snippetTotal (declLoop Regexp MatchString re sites)
  = length (declLoop Regexp MatchString re sites).
Proof.
  induction sites as [|fs sites IH]; [reflexivity|].
  rewrite declLoop_cons, length_app. unfold snippetTotal in *.
  rewrite map_app, list_sum_app, IH. f_equal.
  induction (matching MatchString re fs) as [|s ss IHs]; simpl; [reflexivity|].
  now rewrite IHs.
Qed.

Lemma matching_length (fs : fileSites) :
  (length (matching MatchString re fs) <= length (snippets fs))%nat.
Proof.
  unfold matching. induction (snippets fs) as [|s ss IH]; simpl; [lia|].
  destruct (MatchString re (Text s)); simpl; lia.
Qed.

End DeclarationFacts.

Lemma list_sum_map_le {A} (f g : A -> nat) (l : list A) :
  (forall x, (f x <= g x)%nat) -> (list_sum (map f l) <= list_sum (map g l))%nat.
Proof.
  intros Hfg. induction l as [|x l IH]; simpl; [lia|].
  specialize (Hfg x). lia.
Qed.

Lemma firstSeen_twice (k : string) (l : list string) :
  firstSeen (k :: k :: l) = firstSeen (k :: l).
Proof.
  simpl. rewrite String.eqb_refl. simpl. f_equal.
  rewrite filter_filter. apply List.filter_ext. intros x. now destruct (String.eqb x k).
Qed.

Lemma firstSeen_block {A} (k : string) (x : A) (xs : list A) (l : list string) :
  firstSeen (map (fun _ => k) (x :: xs) ++ l) = firstSeen (k :: l).
Proof.
  induction xs as [|y xs IH]; [reflexivity|].
  change (firstSeen (k :: k :: map (fun _ => k) xs ++ l) = firstSeen (k :: l)).
  rewrite firstSeen_twice. exact IH.
Qed.

Lemma firstSeen_NoDup_id (l : list string) : List.NoDup l -> firstSeen l = l.
Proof.
  induction 1 as [|k l Hk Hnd IH]; simpl; [reflexivity|].
  rewrite IH. f_equal. apply filter_all. intros x Hx.
  apply negb_true_iff, String.eqb_neq. intros ->. contradiction.
Qed.

(** The keys of the declaration sites: each site with a match brings its
    key once or more, the others bring nothing, so the distinct keys are
    those of the sites with a match. *)
Lemma declLoop_keys {Regexp : Type} (MatchString : Regexp -> string -> bool) (re : Regexp)
    (key : fileSites -> string) (sites : list fileSites) :
  (forall fs s, key (mkFileSites (containingFile fs) [s] (fileChecksum fs) (snippetsHash fs))
                = key fs) ->
  firstSeen (map key (declLoop Regexp MatchString re sites))
  = firstSeen (map key (declared MatchString re sites)).
Proof.
  intros Hkey. induction sites as [|fs sites IH]; [reflexivity|].
  rewrite declLoop_cons, map_app, map_map. unfold declared in *. simpl List.filter.
  destruct (matching MatchString re fs) as [|s ss] eqn:Hm.
  - simpl. exact IH.
  - cbn [length Nat.eqb negb].
    rewrite (map_ext _ (fun _ => key fs)) by (intros; apply Hkey).
    rewrite firstSeen_block. cbn [map firstSeen]. now rewrite IH.
Qed.

(** X14. A declaration site holds a single snippet, a matching snippet of
    one of the sites, under the file of that site: there are as many
    declaration sites as matching snippets, never more than snippets, and
    the lines of the declarations are lines of the references too. *)
Theorem declLoop_single_snippets (Regexp : Type) (MatchString : Regexp -> string -> bool)
    (re : Regexp) (sites : list fileSites) :
  let decls := declLoop Regexp MatchString re sites in
  length decls = list_sum (map (fun fs => length (matching MatchString re fs)) sites) /\
  snippetTotal decls = length decls /\
  (length decls <= snippetTotal sites)%nat /\
  (forall d, In d decls ->
     exists fs s, In fs sites /\ In s (snippets fs) /\
       MatchString re (Text s) = true /\
       snippets d = [s] /\ containingFile d = containingFile fs /\
       fileChecksum d = fileChecksum fs /\ snippetsHash d = snippetsHash fs).
Proof.
  intros decls. split; [apply declLoop_length|]. split; [apply declLoop_snippetTotal|].
  split.
  - unfold decls. rewrite declLoop_length. unfold snippetTotal.
    apply list_sum_map_le. intros fs. apply matching_length.
  - intros d Hd. apply declLoop_In in Hd as (fs & s & Hfs & Hs & Hm & ->).
    exists fs, s. simpl. auto 10.
Qed.

(** X15. The copies made for the declarations keep the checksum and the
    digest of their site, so in the grouping of the declarations every
    matching snippet after the first of a file counts as a duplicate file
    and as a duplicate match (the code says of this shortcut that it leads
    to DUPs): each counter is the number of declaration sites less the
    number of distinct keys of the sites with a match, and for sites with
    distinct checksums, or distinct digests, less the number of those
    sites. *)
Theorem declarations_duplicate_counts (Regexp : Type)
    (MatchString : Regexp -> string -> bool) (re : Regexp) (sites : list fileSites) :
  let decls := declLoop Regexp MatchString re sites in
  let ds := groupSites decls in
  let found := declared MatchString re sites in
  fileDupCnt ds = Z.of_nat (length decls)
                  - Z.of_nat (length (firstSeen (map fileChecksum found))) /\
  matchDupCnt ds = Z.of_nat (length decls)
                   - Z.of_nat (length (firstSeen (map snippetsHash found))) /\
  length (groups ds) = length (firstSeen (map snippetsHash found)) /\
  (List.NoDup (map fileChecksum sites) ->
   fileDupCnt ds = Z.of_nat (length decls) - Z.of_nat (length found)) /\
  (List.NoDup (map snippetsHash sites) ->
   matchDupCnt ds = Z.of_nat (length decls) - Z.of_nat (length found)).
Proof.
  intros decls ds found. pose proof (groupLoop_inv decls) as Hinv.
  assert (Hfd : fileDupCnt ds = Z.of_nat (repeats [] (map fileChecksum decls)))
    by apply (inv_fileDup _ _ Hinv).
  assert (Hmd : matchDupCnt ds = Z.of_nat (repeats [] (map snippetsHash decls)))
    by apply (inv_matchDup _ _ Hinv).
  pose proof (repeats_firstSeen (map fileChecksum decls)) as Hc.
  pose proof (repeats_firstSeen (map snippetsHash decls)) as Hh.
  rewrite length_map in Hc, Hh.
  assert (Kc : firstSeen (map fileChecksum decls) = firstSeen (map fileChecksum found))
    by (apply declLoop_keys; reflexivity).
  assert (Kh : firstSeen (map snippetsHash decls) = firstSeen (map snippetsHash found))
    by (apply declLoop_keys; reflexivity).
  rewrite Kc in Hc. rewrite Kh in Hh.
  split; [lia|]. split; [lia|]. split; [|split].
  - unfold ds. rewrite groups_members, length_map. now rewrite Kh.
  - intros Hnd. rewrite firstSeen_NoDup_id, length_map in Hc; [lia|].
    now apply NoDup_map_filter.
  - intros Hnd. rewrite firstSeen_NoDup_id, length_map in Hh; [lia|].
    now apply NoDup_map_filter.
Qed.

Lemma members_all (h : string) (out : list (string * UhFileSites)) :
  (forall p, In p out -> fst p = h) -> members h out = map snd out.
Proof.
  intros Hall. unfold members. rewrite filter_all; [reflexivity|].
  intros p Hp. rewrite (Hall p Hp). apply String.eqb_refl.
Qed.

Lemma emitFrom_copies (file : UhDisplayedFile) (c h : string) (rest : list UhSnippet)
    (before : list fileSites) (g : fileSites) :
  canonicalOf c before = Some g -> containingFile g = file ->
  emitFrom before (map (fun s => mkFileSites file [s] c h) rest)
  = map (fun s => (h, mkUhFileSites file (Some file) [s])) rest.
Proof.
  revert before. induction rest as [|s rest IH]; intros before Hcan Hfile; [reflexivity|].
  simpl. unfold emit at 1. simpl. rewrite Hcan. simpl. rewrite Hfile. f_equal.
  apply IH; [|exact Hfile]. rewrite canonicalOf_snoc. now rewrite Hcan.
Qed.

(** X16. The declarations of one site with several matching snippets come
    out as one group of copies of that site: the first with [IsDupOf] nil
    and each of the others marked as a duplicate of the very file it is
    in. *)
Theorem declarations_self_duplicate (Regexp : Type)
    (MatchString : Regexp -> string -> bool) (re : Regexp) (fs : fileSites)
    (s : UhSnippet) (rest : list UhSnippet) :
  matching MatchString re fs = s :: rest ->
  groups (groupSites (declLoop Regexp MatchString re [fs])) =
    [mkGroup (mkUhFileSites (containingFile fs) None [s]
              :: map (fun s' => mkUhFileSites (containingFile fs)
                                              (Some (containingFile fs)) [s']) rest)].
Proof.
  intros Hm. rewrite declLoop_cons, Hm. change (declLoop _ _ _ []) with (@nil fileSites).
  rewrite app_nil_r. rewrite groups_members.
  set (copy := fun s' => mkFileSites (containingFile fs) [s'] (fileChecksum fs)
                                     (snippetsHash fs)).
  assert (Hkeys : firstSeen (map snippetsHash (map copy (s :: rest))) = [snippetsHash fs]).
  { rewrite map_map. change (fun x => snippetsHash (copy x)) with (fun _ : UhSnippet => snippetsHash fs).
    rewrite <- (app_nil_r (map _ (s :: rest))). now rewrite firstSeen_block. }
  rewrite Hkeys. cbn [map]. f_equal. f_equal.
  assert (Hem : emitted (copy s :: map copy rest) =
                (snippetsHash fs, mkUhFileSites (containingFile fs) None [s])
                :: map (fun s' => (snippetsHash fs,
                                   mkUhFileSites (containingFile fs)
                                                 (Some (containingFile fs)) [s'])) rest).
  { unfold emitted. cbn [emitFrom app]. f_equal.
    apply (emitFrom_copies _ _ _ rest [copy s] (copy s)); [|reflexivity].
    unfold canonicalOf. simpl. now rewrite String.eqb_refl. }
  rewrite Hem, members_all.
  - cbn [map snd]. f_equal. rewrite map_map. reflexivity.
  - intros p [<-|(s' & <- & _)%in_map_iff]; reflexivity.
Qed.

Lemma declarations_self_duplicate_witness :
  let file := mkDisplayed "r:a.hs" "r:a.hs" in
  let s1 := mkSnippet "foo :: Int" (mkRange (mkPoint 0 0) (mkPoint 0 10))
                      (mkRange (mkPoint 0 0) (mkPoint 0 3)) in
  let s2 := mkSnippet "foo = 1" (mkRange (mkPoint 1 0) (mkPoint 1 7))
                      (mkRange (mkPoint 1 0) (mkPoint 1 3)) in
  let matches := fun (_ : unit) (line : string) => GoStrings.HasPrefix line "foo" in
  let fs := mkFileSites file [s1; s2] "c1" "h1" in
  matching matches tt fs = [s1; s2] /\
  groups (groupSites (declLoop unit matches tt [fs])) =
    [mkGroup [mkUhFileSites file None [s1]; mkUhFileSites file (Some file) [s2]]].
Proof.
  split; [reflexivity|].
  exact (declarations_self_duplicate unit
           (fun (_ : unit) (line : string) => GoStrings.HasPrefix line "foo") tt
           (mkFileSites (mkDisplayed "r:a.hs" "r:a.hs")
              [mkSnippet "foo :: Int" (mkRange (mkPoint 0 0) (mkPoint 0 10))
                         (mkRange (mkPoint 0 0) (mkPoint 0 3));
               mkSnippet "foo = 1" (mkRange (mkPoint 1 0) (mkPoint 1 7))
                         (mkRange (mkPoint 1 0) (mkPoint 1 3))] "c1" "h1")
           _ _ eq_refl).
Defined.

(** ** The match limits *)

Lemma goDiv_nonneg (a b : Z) :
  0 <= a < 2 ^ 63 -> 0 < b -> goDiv a b = Some (a / b).
Proof.
  intros Ha Hb. unfold goDiv. destruct (Z.eqb_spec b 0) as [->|_]; [lia|].
  rewrite Z.quot_div_nonneg by lia. f_equal. apply wrap64_small.
  pose proof (Z.div_pos a b ltac:(lia) Hb).
  pose proof (Z.div_le_upper_bound a b a Hb ltac:(nia)). lia.
Qed.

(** X17. The match limits are always computed: the two divisions by a
    share of the estimate are only done for an estimate above 10000, where
    the divisors are at least 10 and 20.  For such an estimate the limit per
    shard is between 5 and 5.5 times the number of files asked for and the
    limit of important matches per shard between a twentieth and a tenth
    of it, and the totals are left alone; for a smaller estimate all four
    limits are the estimate plus a hundred times that number. *)
Theorem searchLimits_bounds (num numdocs : Z) :
  0 < num < 2 ^ 32 -> - 2 ^ 63 <= numdocs < 2 ^ 63 ->
  exists L, searchLimits num numdocs = Some L /\
    MaxDocDisplayCount L = num /\
    (10000 < numdocs ->
       5 * num <= ShardMaxMatchCount L /\ 2 * ShardMaxMatchCount L <= 11 * num /\
       num / 20 <= ShardMaxImportantMatch L /\ 10 * ShardMaxImportantMatch L <= num /\
       TotalMaxMatchCount L = None /\ TotalMaxImportantMatch L = None) /\
    (numdocs <= 10000 ->
       ShardMaxMatchCount L = numdocs + 100 * num /\
       ShardMaxImportantMatch L = numdocs + 100 * num /\
       TotalMaxMatchCount L = Some (numdocs + 100 * num) /\
       TotalMaxImportantMatch L = Some (numdocs + 100 * num)).
Proof.
  intros Hnum Hdocs. unfold searchLimits.
  destruct (Z.ltb_spec 10000 numdocs) as [Hbig|Hsmall].
  - assert (H1 : 10 <= numdocs / 1000) by (apply Z.div_le_lower_bound; lia).
    assert (H2 : 20 <= numdocs / 500) by (apply Z.div_le_lower_bound; lia).
    rewrite (goDiv_nonneg numdocs 1000) by lia. cbn [mbind option_bind].
    rewrite (wrap64_small (5 * num)) by lia.
    rewrite (goDiv_nonneg (5 * num) (numdocs / 1000)) by lia. cbn [mbind option_bind].
    rewrite (goDiv_nonneg numdocs 500) by lia. cbn [mbind option_bind].
    rewrite (goDiv_nonneg num 20) by lia. cbn [mbind option_bind].
    rewrite (goDiv_nonneg num (numdocs / 500)) by lia. cbn [mbind option_bind].
    set (e := 5 * num / (numdocs / 1000)). set (i := num / (numdocs / 500)).
    assert (He : 0 <= e /\ 10 * e <= 5 * num).
    { pose proof (Z.div_pos (5 * num) (numdocs / 1000) ltac:(lia) ltac:(lia)).
      pose proof (Z.mul_div_le (5 * num) (numdocs / 1000) ltac:(lia)). fold e in H, H0.
      split; [lia | nia]. }
    assert (Hi : 0 <= i /\ 20 * i <= num).
    { pose proof (Z.div_pos num (numdocs / 500) ltac:(lia) ltac:(lia)).
      pose proof (Z.mul_div_le num (numdocs / 500) ltac:(lia)). fold i in H, H0.
      split; [lia | nia]. }
    assert (Ht : 0 <= num / 20 /\ 20 * (num / 20) <= num).
    { split; [apply Z.div_pos; lia | apply Z.mul_div_le; lia]. }
    eexists. split; [reflexivity|]. simpl.
    rewrite (wrap64_small (num * 5)) by lia.
    rewrite (wrap64_small (num * 5 + e)) by lia.
    rewrite (wrap64_small (num / 20 + i)) by lia.
    split; [reflexivity|]. split; [|lia]. intros _. repeat split; lia.
  - eexists. split; [reflexivity|]. simpl.
    rewrite (wrap64_small (num * 100)) by lia.
    rewrite (wrap64_small (numdocs + num * 100)) by lia.
    split; [reflexivity|]. split; [lia|]. intros _.
    replace (numdocs + num * 100) with (numdocs + 100 * num) by lia. repeat split.
Qed.

Lemma searchLimits_bounds_witness :
  0 < 500 < 2 ^ 32 /\ - 2 ^ 63 <= 250000 < 2 ^ 63 /\
  exists L, searchLimits 500 250000 = Some L /\ MaxDocDisplayCount L = 500.
Proof.
  split; [lia|]. split; [lia|].
  destruct (searchLimits_bounds 500 250000 ltac:(lia) ltac:(lia)) as (L & HL & Hmax & _).
  exists L. split; [exact HL | exact Hmax].
Defined.

(** ** More on the relevance sort *)

(** X18. A query ticket whose repository is the repository of no site (as
    the ticket made up when the request has none) leaves the sites in the
    order of the backend. *)
Theorem relevanceSort_inert (q : ticket) (l : list fileSites) :
  (forall fs, In fs l -> siteRepo fs <> repo q) -> relevanceSort q l = l.
Proof.
  intros Hnone. rewrite relevanceSort_classes.
  rewrite (@filter_none _ (fun fs => Nat.eqb (relevanceRank q fs) 0) l),
          (@filter_none _ (fun fs => Nat.eqb (relevanceRank q fs) 1) l),
          (@filter_all _ (fun fs => Nat.eqb (relevanceRank q fs) 2) l);
    [reflexivity| | |];
    intros fs Hfs; unfold relevanceRank;
    destruct (String.eqb_spec (siteRepo fs) (repo q)) as [Heq|_];
    try reflexivity; now destruct (Hnone fs Hfs).
Qed.

Lemma relevanceSort_inert_witness :
  let site t := mkFileSites (mkDisplayed t t) [] EmptyString EmptyString in
  let q := parseTicket "nosuchrepo:nosuchfile" in
  (forall fs, In fs [site "repo2:x"; site "repo1:y"] -> siteRepo fs <> repo q) /\
  relevanceSort q [site "repo2:x"; site "repo1:y"] = [site "repo2:x"; site "repo1:y"].
Proof.
  assert (H : forall fs,
            In fs [mkFileSites (mkDisplayed "repo2:x" "repo2:x") [] EmptyString EmptyString;
                   mkFileSites (mkDisplayed "repo1:y" "repo1:y") [] EmptyString EmptyString] ->
            siteRepo fs <> repo (parseTicket "nosuchrepo:nosuchfile")).
  { intros fs [<-|[<-|[]]]; discriminate. }
  split; [exact H|].
  exact (relevanceSort_inert (parseTicket "nosuchrepo:nosuchfile") _ H).
Defined.

(** X19. The relevance sort only rearranges the sites, and sorting a
    sorted list again changes nothing. *)
Theorem relevanceSort_idempotent (q : ticket) (l : list fileSites) :
  Permutation (relevanceSort q l) l /\
  length (relevanceSort q l) = length l /\
  relevanceSort q (relevanceSort q l) = relevanceSort q l.
Proof.
  assert (Hperm : Permutation (relevanceSort q l) l) by apply insertionSort_perm.
  split; [exact Hperm|]. split; [now apply Permutation_length|].
  symmetry. apply stable_sort_classes; [|reflexivity].
  eapply StronglySorted_weaken; [|apply relevanceSort_sorted].
  intros a b. apply relevance_notAfter.
Qed.

(** ** The reply as a whole *)

Lemma snippetOf_None_iff (l : LineMatch) : snippetOf l = None <-> LineFragments l = [].
Proof.
  unfold snippetOf. destruct (LineFragments l); split; congruence.
Qed.

Lemma siteOf_None_iff (sha1Sum : string -> string) (f : FileMatch) :
  siteOf sha1Sum f = None <-> exists l, In l (LineMatches f) /\ LineFragments l = [].
Proof.
  unfold siteOf. split.
  - destruct (mapM snippetOf (LineMatches f)) as [snips|] eqn:Hm; [discriminate|].
    intros _. apply mapM_None, Exists_exists in Hm as (l & Hl & Hnone).
    exists l. split; [now apply list_elem_of_In | now apply snippetOf_None_iff].
  - intros (l & Hl & Hnil). now apply (siteOf_None sha1Sum f l).
Qed.

Lemma appendSearches_None_iff (sha1Sum : string -> string) (files : list FileMatch)
    (acc : list fileSites) :
  appendSearches sha1Sum files acc = None <->
  exists f l, In f files /\ In l (LineMatches f) /\ LineFragments l = [].
Proof.
  unfold appendSearches. split.
  - destruct (mapM (siteOf sha1Sum) files) as [sites|] eqn:Hm; [discriminate|].
    intros _. apply mapM_None, Exists_exists in Hm as (f & Hf & Hnone).
    apply siteOf_None_iff in Hnone as (l & Hl & Hnil).
    exists f, l. split; [now apply list_elem_of_In | auto].
  - intros (f & l & Hf & Hl & Hnil).
    assert (Hn : mapM (siteOf sha1Sum) files = None).
    { apply mapM_None, Exists_exists. exists f. split; [now apply list_elem_of_In|].
      apply siteOf_None_iff. eauto. }
    now rewrite Hn.
Qed.

Lemma sites_of_files (sha1Sum : string -> string) (files : list FileMatch)
    (sites : list fileSites) :
  mapM (siteOf sha1Sum) files = Some sites ->
  length sites = length files /\
  snippetTotal sites = list_sum (map (fun f => length (LineMatches f)) files).
Proof.
  intros Hm. apply mapM_Some in Hm. unfold snippetTotal.
  induction Hm as [|f fs files sites Hsite _ IH]; [split; reflexivity|].
  destruct IH as [IHlen IHsum]. simpl. rewrite IHlen, IHsum.
  destruct (siteOf_fields sha1Sum f fs Hsite) as [_ Hsn].
  apply length_mapM in Hsn. rewrite Hsn. split; reflexivity.
Qed.

(** X20. A cross-reference request is answered unless a line match of the
    backend's answer has no fragment or the expression built from the
    selection does not compile.  In the answer, [rcFiles] is the number of
    files the backend returned and [rcLines] the number of their line
    matches; calls and definitions are always empty. *)
Theorem serveSearchXref_reply (sha1Sum : string -> string) (Regexp : Type)
    (regexpCompile : string -> option Regexp) (MatchString : Regexp -> string -> bool)
    (selection ticketText : string) (files : list FileMatch) :
  (serveSearchXref sha1Sum Regexp regexpCompile MatchString selection ticketText files
     = None <->
   (exists f l, In f files /\ In l (LineMatches f) /\ LineFragments l = []) \/
   regexpCompile (declPattern selection) = None) /\
  (forall reply,
     serveSearchXref sha1Sum Regexp regexpCompile MatchString selection ticketText files
       = Some reply ->
     rcFiles (RefCounts reply) = Z.of_nat (length files) /\
     rcLines (RefCounts reply)
       = Z.of_nat (list_sum (map (fun f => length (LineMatches f)) files)) /\
     Calls reply = [] /\ CallCount reply = 0 /\ Definitions reply = []).
Proof.
  unfold serveSearchXref.
  pose proof (appendSearches_None_iff sha1Sum files []) as Hnone.
  destruct (appendSearches sha1Sum files []) as [sites|] eqn:Happ.
  - assert (Hno : ~ exists f l, In f files /\ In l (LineMatches f) /\ LineFragments l = []).
    { intros H. apply Hnone in H. discriminate. }
    cbn [mbind option_bind]. unfold declSites.
    destruct (regexpCompile (declPattern selection)) as [re|] eqn:Hre;
      cbn [mbind option_bind].
    + split; [split; [discriminate | intros [H|H]; [contradiction | discriminate]]|].
      intros reply [= <-]. simpl.
      unfold appendSearches in Happ.
      destruct (mapM (siteOf sha1Sum) files) as [built|] eqn:Hm; [|discriminate].
      simpl in Happ. injection Happ as <-.
      destruct (sites_of_files sha1Sum files built Hm) as [Hlen Hsum].
      pose proof (insertionSort_perm (relevanceLess (parseTicket ticketText)) built) as Hperm.
      fold (GoSort.SliceStable (relevanceLess (parseTicket ticketText)) built) in Hperm.
      fold (relevanceSort (parseTicket ticketText) built) in Hperm.
      split; [|split; [|repeat split]].
      * rewrite (inv_fileCnt _ _ (groupLoop_inv _)), (Permutation_length Hperm).
        now rewrite Hlen.
      * unfold groupLoop. rewrite groupLoop_snips. simpl.
        unfold snippetTotal in *.
        rewrite (list_sum_perm _ _ (Permutation_map _ Hperm)). now rewrite Hsum.
    + split; [split; [auto | reflexivity]|]. discriminate.
  - cbn [mbind option_bind]. split; [|discriminate].
    split; [intros _; left; now apply Hnone | reflexivity].
Qed.
